(** * Bike Stats Code: a shallow embedding of BikeCode.ipynb

    The notebook's numeric kernels are embedded as Rocq functions and the
    properties stated about them are proved (or refuted) below.

    Conventions of the embedding.
    - A Python [int] is a [Z].  A finite Python [float] is modelled by the
      rational number it denotes, a [Q]; arithmetic on floats is exact
      rational arithmetic, so binary64 round-off is abstracted away.
      Comparisons between ints and floats are exact in Python and exact here.
    - A NumPy/pandas float column may also hold [inf], [-inf] and [nan];
      those are modelled by [npfloat] in module [Rides].
    - A Python exception is an explicit outcome, [Raise e]. *)

From Stdlib Require Import ZArith QArith Qround Qabs Qpower Lia Lqa.
From Stdlib Require Import List Bool Ascii String DecimalString DecimalPos DecimalN.
From Stdlib Require Import Permutation Sorted Orders Mergesort.
Import ListNotations.

Local Open Scope Z_scope.

(** ** Python outcomes *)

Inductive exn : Type :=
| ValueError
| KeyError.

Inductive py (A : Type) : Type :=
| Return (a : A)
| Raise (e : exn).

Arguments Return {A} a.
Arguments Raise {A} e.

Definition bind {A B : Type} (m : py A) (k : A -> py B) : py B :=
  match m with
  | Return a => k a
  | Raise e => Raise e
  end.

Notation "x <- m ;; k" := (bind m (fun x => k))
  (at level 61, m at next level, right associativity).

(** ** Python builtins over lists *)

(** [enumerate(l, start)]. *)
Fixpoint enumerate {A : Type} (start : Z) (l : list A) : list (Z * A) :=
  match l with
  | [] => []
  | x :: r => (start, x) :: enumerate (start + 1) r
  end.

(** [max(iterable)] on integers: [ValueError] on an empty iterable. *)
Definition py_max (l : list Z) : py Z :=
  match l with
  | [] => Raise ValueError
  | x :: r => Return (fold_left Z.max r x)
  end.

(** ** Python text builtins (ASCII text) *)

Module Text.
Local Open Scope string_scope.

(** [s.split(sep)] for a one-character separator. *)
Fixpoint split (sep : ascii) (s : string) : list string :=
  match s with
  | EmptyString => [EmptyString]
  | String c r =>
      if Ascii.eqb c sep then EmptyString :: split sep r
      else match split sep r with
           | [] => [String c EmptyString]
           | f :: fs => String c f :: fs
           end
  end.

(** [sep.join(fields)], the inverse reading of [split]. *)
Fixpoint join (sep : ascii) (fields : list string) : string :=
  match fields with
  | [] => EmptyString
  | [f] => f
  | f :: fs => f ++ String sep (join sep fs)
  end.

(** The ASCII characters for which [str.isspace] holds: the space, tab to
    carriage return, and the four separators FS, GS, RS, US. *)
Definition is_space (c : ascii) : bool :=
  let n := nat_of_ascii c in
  (n =? 32)%nat || ((9 <=? n)%nat && (n <=? 13)%nat)
  || ((28 <=? n)%nat && (n <=? 31)%nat).

Fixpoint lstrip (s : string) : string :=
  match s with
  | String c r => if is_space c then lstrip r else s
  | EmptyString => EmptyString
  end.

Fixpoint rstrip (s : string) : string :=
  match s with
  | EmptyString => EmptyString
  | String c r =>
      match rstrip r with
      | EmptyString => if is_space c then EmptyString else String c EmptyString
      | r' => String c r'
      end
  end.

(** [s.strip()] *)
Definition strip (s : string) : string := rstrip (lstrip s).

Definition digit_val (c : ascii) : option Z :=
  let n := nat_of_ascii c in
  if ((48 <=? n)%nat && (n <=? 57)%nat)%bool then Some (Z.of_nat (n - 48)) else None.

Definition is_digit (c : ascii) : bool :=
  match digit_val c with Some _ => true | None => false end.

(** Decimal digits, where a single underscore may separate two digits. *)
Fixpoint digits_val (acc : Z) (s : string) : option Z :=
  match s with
  | EmptyString => Some acc
  | String c r =>
      if Ascii.eqb c "_" then
        match r with
        | String c' _ => if is_digit c' then digits_val acc r else None
        | EmptyString => None
        end
      else
        match digit_val c with
        | Some d => digits_val (10 * acc + d) r
        | None => None
        end
  end.

Definition unsigned_val (s : string) : option Z :=
  match s with
  | String c _ => if is_digit c then digits_val 0 s else None
  | EmptyString => None
  end.

(** [int(s)] on a string: surrounding whitespace is ignored, a sign is
    allowed, anything else but a decimal literal raises [ValueError]. *)
Definition py_int (s : string) : py Z :=
  let body := strip s in
  let signed :=
    match body with
    | String "-" r => option_map Z.opp (unsigned_val r)
    | String "+" r => unsigned_val r
    | _ => unsigned_val body
    end in
  match signed with
  | Some z => Return z
  | None => Raise ValueError
  end.

(** [str(n)] for an int. *)
Definition str_int (z : Z) : string := NilZero.string_of_int (Z.to_int z).

(** Right-alignment in a field of [width] characters, as [{s:>width}] and
    as the minimum width of a number format do it. *)
Definition pad_left (width : nat) (s : string) : string :=
  let fix spaces (n : nat) : string :=
    match n with
    | O => EmptyString
    | S k => String " " (spaces k)
    end in
  spaces (width - String.length s)%nat ++ s.

(** Zero-padding of a digit string on the left. *)
Definition zero_pad (width : nat) (s : string) : string :=
  let fix zeros (n : nat) : string :=
    match n with
    | O => EmptyString
    | S k => String "0" (zeros k)
    end in
  zeros (width - String.length s)%nat ++ s.

(** Thousands separators: a comma before every group of three digits,
    counted from the right. [s] is a string of digits. *)
Fixpoint group3 (s : string) : string :=
  match s with
  | EmptyString => EmptyString
  | String c r =>
      let n := String.length r in
      if ((0 <? n)%nat && (n mod 3 =? 0)%nat)%bool
      then String c (String "," (group3 r))
      else String c (group3 r)
  end.

(** [f'{n:,d}'] *)
Definition format_grouped (n : Z) : string :=
  let digits := NilZero.string_of_uint (N.to_uint (Z.to_N (Z.abs n))) in
  (if (n <? 0)%Z then "-" else "") ++ group3 digits.

End Text.

(** ** Python numbers *)

Module Num.
Import Text.
Local Open Scope Q_scope.

(** A number that keeps its Python type, for the places where the type
    shows (in [str]). *)
Inductive pynum : Type :=
| PyInt (z : Z)
| PyFloat (q : Q).

Definition value (x : pynum) : Q :=
  match x with
  | PyInt z => inject_Z z
  | PyFloat q => q
  end.

Definition Qltb (x y : Q) : bool := negb (Qle_bool y x).

(** Rounding to the nearest integer, ties to the even one: Python's
    [round(x)], NumPy's [rint], and the rounding of the [f] format. *)
Definition round_half_even (x : Q) : Z :=
  let f := Qfloor x in
  match Qcompare (x - inject_Z f) (1 # 2) with
  | Lt => f
  | Gt => (f + 1)%Z
  | Eq => if Z.even f then f else (f + 1)%Z
  end.

(** [round(x, ndigits)] on a float. *)
Definition py_round (x : Q) (ndigits : nat) : Q :=
  let scale := inject_Z (10 ^ Z.of_nat ndigits) in
  Qred (inject_Z (round_half_even (x * scale)) / scale).

(** [f'{x:.{prec}f}'] *)
Definition format_f (prec : nat) (x : Q) : string :=
  let scale := (10 ^ Z.of_nat prec)%Z in
  let n := round_half_even (Qabs x * inject_Z scale) in
  let whole := NilZero.string_of_uint (N.to_uint (Z.to_N (n / scale))) in
  let frac := NilZero.string_of_uint (N.to_uint (Z.to_N (n mod scale))) in
  ((if Qltb x 0 then "-" else "") ++ whole ++
   match prec with
   | O => ""
   | S _ => "." ++ zero_pad prec frac
   end)%string.

(** The least number of decimals, from one up to [1 + fuel], with which
    [q] is written exactly. *)
Fixpoint decimals_needed (fuel : nat) (k : nat) (q : Q) : nat :=
  match fuel with
  | O => k
  | S fuel' =>
      let scaled := q * inject_Z (10 ^ Z.of_nat k) in
      if Qeq_bool scaled (inject_Z (Qfloor scaled)) then k
      else decimals_needed fuel' (S k) q
  end.

(** [str(x)] for a float: the shortest decimal that denotes it, with at
    least one decimal ("25.0", "0.02"). Exponent notation, which Python
    uses below 1e-4 and from 1e16 on, is not modelled. *)
Definition str_float (q : Q) : string := format_f (decimals_needed 16 1 q) q.

(** [str(x)], as an f-string field [{x}] renders it. *)
Definition py_str (x : pynum) : string :=
  match x with
  | PyInt z => str_int z
  | PyFloat q => str_float q
  end.

(** [sum(iterable)] *)
Definition py_sum (l : list Q) : Q := fold_left Qplus l 0.

End Num.

(** ** Time parsing *)

Module Parsing.
Import Text Num.
Local Open Scope Q_scope.





End Parsing.

(** ** Wandrer places: badges and progress *)

Module Badges.
Import Text Num.
Local Open Scope Q_scope.

(** The number of recursive calls [rounded] makes is bounded by the size
    of its argument: every call divides by a million. *)
Definition rounded_depth (x : Q) : nat := Z.to_nat (Z.log2_up (Qceiling x)).

(** The numbers a recursion of depth [k] is enough for. *)
Definition bound (k : nat) : Q := inject_Z (1000000 ^ Z.of_nat k).

(** The three cases of [rounded] that do not recur: [f'{x/1e6:4.2f}M'],
    [f'{round(x):,d}'] and [f'{x:.1f}']. *)
Definition rounded_small (x : Q) : string :=
  if Qltb 100000 x then (pad_left 4 (format_f 2 (x / 1000000)) ++ "M")%string
  else if Qltb 10 x then format_grouped (round_half_even x)
  else format_f 1 x.

Fixpoint rounded_rec (depth : nat) (x : Q) : string :=
  if Qltb 1000000 x then
    match depth with
    | O => EmptyString
    | S depth' => (rounded_rec depth' (x / 1000000) ++ "M")%string
    end
  else rounded_small x.

(** [rounded]: round x to 3 spaces wide (if possible). *)
Definition rounded (x : Q) : string := rounded_rec (rounded_depth x) x.

(** The tiers [badge] tries, in its order. *)
Definition badge_tiers : list Z := [99; 90; 75; 50; 25]%Z.

Fixpoint badge_scan (tiers : list Z) (pct : Q) : string :=
  match tiers with
  | [] => "none"%string
  | b :: rest =>
      if Qle_bool (inject_Z b) pct then (str_int b ++ "%")%string
      else badge_scan rest pct
  end.

(** [badge]: what badge has this got us? *)
Definition badge (pct : Q) : string := badge_scan badge_tiers pct.

(** A [dict] from numbers to numbers, in insertion order. Keys are equal
    when their values are, whatever their type ([1 == 1.0]). *)
Definition dict : Type := list (pynum * Q).

Definition key_eqb (a b : pynum) : bool := Qeq_bool (value a) (value b).

(** [d[k]] *)
Fixpoint dict_get (d : dict) (k : pynum) : py Q :=
  match d with
  | [] => Raise KeyError
  | (k', v) :: r => if key_eqb k' k then Return v else dict_get r k
  end.

(** Iterating a dict yields its keys. *)
Definition keys (d : dict) : list pynum := map fst d.


(** The default tier table. *)
Definition bonuses : dict :=
  [ (PyFloat (2 # 100), 0); (PyFloat (1 # 10), 0); (PyFloat (2 # 10), 0);
    (PyInt 1, 0); (PyInt 2, 0);
    (PyInt 25, 25 # 100); (PyInt 50, 5 # 100); (PyInt 75, 10 # 100);
    (PyInt 90, 50 # 100); (PyInt 99, 10 # 100) ].


(** The text [to_go] returns for threshold [b]. *)
Definition report (delta : Q) (b : pynum) (points : Q) : string :=
  (pad_left 5 (rounded delta) ++ " mi to " ++ py_str b ++ "% (" ++
   rounded points ++ " points)")%string.

(** The test [done < b / 100 * miles]. *)
Definition passes (done miles : Q) (b : pynum) : bool :=
  Qltb done (value b / 100 * miles).

(** The loop [for b in bonuses] of [to_go]. *)
Fixpoint to_go_loop (bs : list pynum) (done miles : Q) (bonuses : dict)
  : py string :=
  match bs with
  | [] => Return EmptyString
  | b :: rest =>
      if passes done miles b then
        let delta := value b / 100 * miles - done in
        bonus <- dict_get bonuses b ;;
        Return (report delta b (bonus * miles + delta))
      else to_go_loop rest done miles bonuses
  end.

(** [to_go]: describe next target to hit to get a badge. The percentage
    and the miles enter arithmetic only and are taken by value. *)
Definition to_go (pct miles : Q) (bonuses : dict) : py string :=
  let done := pct * miles / 100 in
  to_go_loop (keys bonuses) done miles bonuses.

End Badges.

(** ** Ride columns *)

Module Rides.
Import Text Num.
Local Open Scope Q_scope.

(** An entry of a float column: a finite float, an infinity or NaN.
    Arithmetic on columns is NumPy's, which follows IEEE 754 and raises
    nothing: [x / 0] is an infinity and [0 / 0] is NaN. The sign of a zero
    is not modelled; zero is taken as positive. *)
Inductive npfloat : Type :=
| Fin (q : Q)
| Inf (negative : bool)
| NaN.

Definition negativeb (q : Q) : bool := Qltb q 0.

Definition np_div (x y : npfloat) : npfloat :=
  match x, y with
  | NaN, _ | _, NaN => NaN
  | Inf _, Inf _ => NaN
  | Inf s, Fin b => Inf (xorb s (negativeb b))
  | Fin _, Inf _ => Fin 0
  | Fin a, Fin b =>
      if Qeq_bool b 0
      then (if Qeq_bool a 0 then NaN else Inf (negativeb a))
      else Fin (a / b)
  end.

Definition np_mul (x y : npfloat) : npfloat :=
  match x, y with
  | NaN, _ | _, NaN => NaN
  | Inf s, Inf s' => Inf (xorb s s')
  | Inf s, Fin b | Fin b, Inf s =>
      if Qeq_bool b 0 then NaN else Inf (xorb s (negativeb b))
  | Fin a, Fin b => Fin (a * b)
  end.

(** [round(column, ndigits)]: infinities and NaN are left as they are. *)
Definition np_round (x : npfloat) (ndigits : nat) : npfloat :=
  match x with
  | Fin q => Fin (py_round q ndigits)
  | _ => x
  end.

Definition is_zero (x : npfloat) : bool :=
  match x with
  | Fin q => Qeq_bool q 0
  | _ => false
  end.

Definition is_finite (x : npfloat) : bool :=
  match x with
  | Fin _ => true
  | _ => false
  end.

(** A column operation applies to the entries row by row. *)
Fixpoint zip_with {A B C : Type} (f : A -> B -> C) (xs : list A) (ys : list B)
  : list C :=
  match xs, ys with
  | x :: xs', y :: ys' => f x y :: zip_with f xs' ys'
  | _, _ => []
  end.

(** The frame read from a ride file: [date] and [year] may be absent,
    [hours] and [miles] are float columns, [feet] is the int column that
    the [parse_int] converter produces. *)
Record frame : Type := {
  date : option (list string);
  year : option (list Z);
  miles : list npfloat;
  hours : list npfloat;
  feet : list Z
}.

(** The frame [add_ride_columns] returns. *)
Record ride_frame : Type := {
  rides : frame;
  mph : list npfloat;
  vam : list npfloat;
  fpmi : list npfloat;
  pct : list npfloat;
  kms : list npfloat;
  meters : list npfloat
}.

(** [d.split('/')[-1]] *)
Definition last_field (d : string) : string := last (split "/" d) EmptyString.

(** [[int(str(d).split('/')[-1]) for d in dates]] *)
Fixpoint years_of (dates : list string) : py (list Z) :=
  match dates with
  | [] => Return []
  | d :: r => y <- py_int (last_field d) ;; ys <- years_of r ;; Return (y :: ys)
  end.

(** [rides.insert(1, "year", ...)] when there is a date and no year. *)
Definition insert_year (f : frame) : py frame :=
  match date f, year f with
  | Some dates, None =>
      ys <- years_of dates ;;
      Return {| date := date f; year := Some ys;
                miles := miles f; hours := hours f; feet := feet f |}
  | _, _ => Return f
  end.

Definition scalar (q : Q) : npfloat := Fin q.

(** [add_ride_columns]: compute new columns from existing ones. *)
Definition add_ride_columns (f : frame) : py ride_frame :=
  let mi := miles f in
  let hr := hours f in
  let ft := map (fun z => Fin (inject_Z z)) (feet f) in
  f' <- insert_year f ;;
  Return {|
    rides := f';
    mph := map (fun x => np_round x 2) (zip_with np_div mi hr);
    vam := map (fun x => np_round (np_div x (scalar (328084 # 100000))) 0)
               (zip_with np_div ft hr);
    fpmi := map (fun x => np_round x 0) (zip_with np_div ft mi);
    pct := map (fun x => np_round
                  (np_div (np_mul x (scalar 100)) (scalar 5280)) 2)
               (zip_with np_div ft mi);
    kms := map (fun x => np_round (np_mul x (scalar (1609 # 1000))) 2) mi;
    meters := map (fun x => np_round (np_mul x (scalar (3048 # 10000))) 0) ft
  |}.

End Rides.

(** ** Curve fitting *)

Module Fit.
Import Num.
Local Open Scope Q_scope.

(** The function [poly_fit] returns, for the coefficients that
    [np.polyfit] produced (highest degree first; [poly_fit] reverses
    them): [lambda x: sum(c * x ** i for i, c in enumerate(coeffs))]. *)
Definition evaluator (polyfit_result : list Q) (x : Q) : Q :=
  let coeffs := rev polyfit_result in
  py_sum (map (fun ic => snd ic * Qpower x (fst ic)) (enumerate 0 coeffs)).

End Fit.

(** ** Eddington number *)

Module Eddington.

(** The order used by [sorted(..., reverse=True)]: [x] may come before [y]
    when [y <= x]. *)
Module DescOrder <: TotalLeBool.
Definition t := Q.
Definition leb (x y : Q) : bool := Qle_bool y x.
Theorem leb_total : forall x y, leb x y = true \/ leb y x = true.
Proof.
  intros x y. unfold leb.
  destruct (Qlt_le_dec x y) as [H | H].
  - right. apply Qle_bool_iff. apply Qlt_le_weak. exact H.
  - left. apply Qle_bool_iff. exact H.
Qed.
End DescOrder.

Module DescSort := Sort DescOrder.

(** [sorted(l, reverse=True)] *)
Definition sorted_reverse (l : list Q) : list Q := DescSort.sort l.

(** The order of two neighbours in a list sorted that way. *)
Definition desc (x y : Q) : Prop := is_true (DescOrder.leb x y).

(** The test [d >= e] between a float [d] and an int [e]. *)
Definition ge_int (d : Q) (e : Z) : bool := Qle_bool (inject_Z e) d.

(** The generator [(e for e, d in enumerate(distances, 1) if d >= e)]. *)
Definition qualifying (distances : list Q) : list Z :=
  map fst (filter (fun ed => ge_int (snd ed) (fst ed)) (enumerate 1 distances)).

(** [Ed_number], applied to the column [rides[units]]. *)
Definition Ed_number (column : list Q) : py Z :=
  let distances := sorted_reverse column in
  py_max (qualifying distances).

(** The number of entries that are [>= e]. *)
Definition count_ge (column : list Q) (e : Z) : nat :=
  List.length (filter (fun d => ge_int d e) column).

(** "At least [e] entries in the list are [>= e]". *)
Definition at_least (column : list Q) (e : Z) : Prop :=
  e <= Z.of_nat (count_ge column e).

Definition at_leastb (column : list Q) (e : Z) : bool :=
  e <=? Z.of_nat (count_ge column e).

(** Candidate values [1 .. n]. *)
Definition candidates (n : nat) : list Z :=
  map (fun i => Z.of_nat (S i)) (seq 0 n).

(** The brute-force Eddington number, following the specification's words:
    the maximum over all candidate values [e] such that at least [e]
    entries are [>= e]. No count exceeds the length of the list and 0
    always qualifies, so the candidates are 0 and [1 .. length]. *)
Definition Ed_brute (column : list Q) : Z :=
  fold_left Z.max
    (filter (at_leastb column) (candidates (List.length column))) 0.

End Eddington.

(** ** Eddington gaps and progress *)

Module Gaps.
Import Eddington.

(** [count = sum], applied to a boolean column. *)
Definition count (column : list bool) : Z :=
  fold_left (fun acc (b : bool) => acc + (if b then 1 else 0)) column 0.

(** [Ed_gap]: the number of rides needed to reach an Eddington number
    target. [distances >= target] is the column of the tests. *)
Definition Ed_gap (distances : list Q) (target : Z) : Z :=
  target - count (map (fun d => ge_int d target) distances).

(** [[f(d) for d in range(N)]] *)
Definition for_range {A : Type} (N : nat) (f : Z -> A) : list A :=
  map (fun d => f (Z.of_nat d)) (seq 0 N).

(** [Ed_gaps]: a table of gaps to Eddington numbers, for the [kms] and
    the [miles] column of the rides. *)
Definition Ed_gaps (kms miles : list Q) (N : nat) : py (list (Z * Z * Z * Z)) :=
  e_km <- Ed_number kms ;;
  e_mi <- Ed_number miles ;;
  let E_km := e_km + 1 in
  let E_mi := e_mi + 1 in
  Return (for_range N (fun d =>
            (E_km + d, Ed_gap kms (E_km + d), E_mi + d, Ed_gap miles (E_mi + d)))).

(** [column[mask]]: the entries of the rows where the mask holds. *)
Fixpoint select {A : Type} (mask : list bool) (column : list A) : list A :=
  match mask, column with
  | m :: mask', x :: column' =>
      if m then x :: select mask' column' else select mask' column'
  | _, _ => []
  end.

(** [Ed(year, unit)] of [Ed_progress]: the Eddington number of the rides
    up to a year. *)
Definition Ed (years : list Z) (column : list Q) (year : Z) : py Z :=
  Ed_number (select (map (fun y => y <=? year) years) column).

(** The comprehension of [Ed_progress], one row for each cutoff. *)
Fixpoint Ed_rows (years : list Z) (kms miles : list Q) (cutoffs : list Z)
  : py (list (Z * Z * Z)) :=
  match cutoffs with
  | [] => Return []
  | y :: rest =>
      e_km <- Ed years kms y ;;
      e_mi <- Ed years miles y ;;
      rows <- Ed_rows years kms miles rest ;;
      Return ((y, e_km, e_mi) :: rows)
  end.

(** [Ed_progress]: a table of Eddington numbers by year. *)
Definition Ed_progress (years : list Z) (kms miles : list Q) (cutoffs : list Z)
  : py (list (Z * Z * Z)) :=
  Ed_rows years kms miles cutoffs.

End Gaps.

(** ** Quantities, links and leaders *)

Module Fields.
Import Text Num.
Local Open Scope string_scope.

(** [s.replace(old, new)] for a non-empty [old]: the occurrences are taken
    from the left and do not overlap; [skip] counts the characters of an
    occurrence still to pass over. *)
Fixpoint replace_from (old new : string) (skip : nat) (s : string) : string :=
  match s with
  | EmptyString => EmptyString
  | String c r =>
      match skip with
      | S k => replace_from old new k r
      | O =>
          if String.prefix old s
          then new ++ replace_from old new (String.length old - 1)%nat r
          else String c (replace_from old new 0 r)
      end
  end.

Definition replace (old new s : string) : string := replace_from old new 0 s.

(** [parse_int] *)
Definition parse_int (field : string) : py Z :=
  py_int (replace "mi" "" (replace "ft" "" (replace "," "" field))).

(** [c in s] for a character. *)
Fixpoint contains (c : ascii) (s : string) : bool :=
  match s with
  | EmptyString => false
  | String c' r => Ascii.eqb c' c || contains c r
  end.

(** The double quote of the HTML attributes. *)
Definition dq : string := String (ascii_of_nat 34) EmptyString.

(** The anchor element both link functions build. *)
Definition anchor_element (url text : string) : string :=
  "<a href=" ++ dq ++ url ++ dq ++ " rel=" ++ dq ++ "noopener noreferrer" ++ dq ++
  " target=" ++ dq ++ "_blank" ++ dq ++ ">" ++ text ++ "</a>".

(** [make_clickable]: make a clickable link for a pandas dataframe.
    Unpacking [comment.split('!')] into two names raises [ValueError]
    unless there are exactly two parts. *)
Definition make_clickable (comment : string) : py string :=
  if negb (contains "!" comment) then Return comment
  else
    match split "!" comment with
    | [anchor; number] =>
        Return (anchor_element ("https://www.strava.com/activities/" ++ number) anchor)
    | _ => Raise ValueError
    end.

(** [link_date]: make the date into a clickable link. *)
Definition link_date (date : string) : py string :=
  match split "/" date with
  | [m; d; y] =>
      Return (anchor_element ("https://www.statshunters.com/?to=" ++ y ++ m ++ d) date)
  | _ => Raise ValueError
  end.

(** [pretty_pct] *)
Definition pretty_pct (pct : Q) : string :=
  if Qeq_bool pct 100 then "100%"
  else if Qltb 1 pct then format_f 2 pct ++ "%"
  else format_f 4 pct ++ "%".

(** [county_miles]: the miles of San Mateo and Santa Clara county that the
    percentages stand for, and their total. *)
Definition county_miles (SMp SCp : Q) : list Z :=
  let SMmiles := round_half_even ((28273 # 10) * SMp / 100) in
  let SCmiles := round_half_even ((76887 # 10) * SCp / 100) in
  [SMmiles; SCmiles; (SMmiles + SCmiles)%Z].

(** [s.split()]: the words between runs of whitespace. *)
Fixpoint words (s : string) : list string :=
  match s with
  | EmptyString => []
  | String c r =>
      if is_space c then words r
      else
        match r with
        | String c' _ =>
            if is_space c' then String c EmptyString :: words r
            else match words r with
                 | w :: ws => String c w :: ws
                 | [] => [String c EmptyString]
                 end
        | EmptyString => [String c EmptyString]
        end
  end.

(** [s[0]], with [None] for the [IndexError] of an empty string. *)
Definition first_char (s : string) : option string :=
  match s with
  | EmptyString => None
  | String c _ => Some (String c EmptyString)
  end.

(** [initials]: first and last initials. [None] stands for the
    [IndexError] that indexing an empty string or an empty list of words
    raises. *)
Definition initials (name : string) : option string :=
  match first_char name with
  | None => None
  | Some a =>
      match rev (words name) with
      | [] => None
      | w :: _ =>
          match first_char w with
          | None => None
          | Some b => Some (a ++ b)
          end
      end
  end.


End Fields.

(** ** Decimal numerals *)

Module Numerals.

(** The number a decimal numeral denotes, read digit by digit from the
    left onto an accumulator. *)
Fixpoint uint_val (acc : Z) (d : Decimal.uint) : Z :=
  match d with
  | Decimal.Nil => acc
  | Decimal.D0 l => uint_val (10 * acc) l
  | Decimal.D1 l => uint_val (10 * acc + 1) l
  | Decimal.D2 l => uint_val (10 * acc + 2) l
  | Decimal.D3 l => uint_val (10 * acc + 3) l
  | Decimal.D4 l => uint_val (10 * acc + 4) l
  | Decimal.D5 l => uint_val (10 * acc + 5) l
  | Decimal.D6 l => uint_val (10 * acc + 6) l
  | Decimal.D7 l => uint_val (10 * acc + 7) l
  | Decimal.D8 l => uint_val (10 * acc + 8) l
  | Decimal.D9 l => uint_val (10 * acc + 9) l
  end.

(** Every character of the string satisfies the test. *)
Fixpoint all_chars (P : ascii -> bool) (s : string) : bool :=
  match s with
  | EmptyString => true
  | String c r => P c && all_chars P r
  end.

(** The numeral [str] and the [d] format write: a minus sign for a
    negative number, then the digits of the absolute value. *)
Definition sign_of (z : Z) : string := if (z <? 0)%Z then "-"%string else ""%string.

Definition digits_of (z : Z) : string :=
  NilZero.string_of_uint (N.to_uint (Z.to_N (Z.abs z))).

(** The test of being another character than [x]. *)
Definition differs (x : ascii) (c : ascii) : bool := negb (Ascii.eqb c x).

(** [s.count(c)] for a character. *)
Fixpoint occurrences (c : ascii) (s : string) : nat :=
  match s with
  | EmptyString => O
  | String c' r => ((if Ascii.eqb c' c then 1 else 0) + occurrences c r)%nat
  end.

End Numerals.

(** ** Polynomials *)

Module Poly.
Local Open Scope Q_scope.


End Poly.

(** * Properties *)

(** ** Facts about the list builtins *)

Lemma enumerate_In {A : Type} (l : list A) :
  forall (start e : Z) (d : A),
    In (e, d) (enumerate start l) <->
    exists i : nat, nth_error l i = Some d /\ e = start + Z.of_nat i.
Proof.
  induction l as [| x r IH]; intros start e d; simpl.
  - split; [tauto | intros [[| i] [H _]]; discriminate H].
  - split.
    + intros [H | H].
      * inversion H; subst. exists 0%nat. split; [reflexivity | lia].
      * apply IH in H. destruct H as [i [Hi He]].
        exists (S i). split; [exact Hi | lia].
    + intros [[| i] [Hi He]]; simpl in Hi.
      * left. inversion Hi; subst. f_equal. lia.
      * right. apply IH. exists i. split; [exact Hi | lia].
Qed.

Lemma fold_max_lower (l : list Z) :
  forall a, a <= fold_left Z.max l a.
Proof.
  induction l as [| x r IH]; intro a; simpl; [lia |].
  specialize (IH (Z.max a x)). lia.
Qed.

Lemma fold_max_upper (l : list Z) :
  forall a x, In x l -> x <= fold_left Z.max l a.
Proof.
  induction l as [| y r IH]; intros a x Hin; simpl; [contradiction |].
  destruct Hin as [-> | Hin].
  - pose proof (fold_max_lower r (Z.max a x)). lia.
  - apply IH. exact Hin.
Qed.

Lemma fold_max_attained (l : list Z) :
  forall a, fold_left Z.max l a = a \/ In (fold_left Z.max l a) l.
Proof.
  induction l as [| y r IH]; intro a; simpl; [left; reflexivity |].
  destruct (IH (Z.max a y)) as [H | H].
  - rewrite H. destruct (Z.max_spec a y) as [[_ E] | [_ E]]; rewrite E; auto.
  - right. right. exact H.
Qed.

Lemma py_max_Return (l : list Z) (m : Z) :
  py_max l = Return m -> In m l /\ forall x, In x l -> x <= m.
Proof.
  destruct l as [| y r]; simpl; [discriminate |].
  intro H. inversion H as [Hm]. split.
  - destruct (fold_max_attained r y) as [E | E]; [left; congruence | right; exact E].
  - intros x [-> | Hx]; [apply fold_max_lower | apply fold_max_upper; exact Hx].
Qed.

Lemma py_max_nonempty (l : list Z) (x : Z) :
  In x l -> exists m, py_max l = Return m.
Proof.
  destruct l as [| y r]; simpl; [contradiction |].
  intros _. eexists. reflexivity.
Qed.

(** ** Eddington number: the scan against the counting definition *)

Module EddingtonFacts.
Import Eddington.

Lemma ge_int_true (d : Q) (e : Z) : ge_int d e = true <-> (inject_Z e <= d)%Q.
Proof. unfold ge_int. apply Qle_bool_iff. Qed.

Lemma ge_int_false (d : Q) (e : Z) : ge_int d e = false <-> (d < inject_Z e)%Q.
Proof.
  unfold ge_int. split; intro H.
  - apply Qnot_le_lt. intro Hle. apply Qle_bool_iff in Hle. congruence.
  - destruct (Qle_bool (inject_Z e) d) eqn:E; [| reflexivity].
    apply Qle_bool_iff in E. exfalso. exact (Qlt_not_le _ _ H E).
Qed.

Lemma count_ge_le_length (l : list Q) (e : Z) :
  (count_ge l e <= List.length l)%nat.
Proof. unfold count_ge. apply filter_length_le. Qed.

Lemma count_ge_Permutation (l l' : list Q) (e : Z) :
  Permutation l l' -> count_ge l e = count_ge l' e.
Proof.
  intro H. unfold count_ge. induction H; simpl.
  - reflexivity.
  - destruct (ge_int x e); simpl; congruence.
  - destruct (ge_int x e), (ge_int y e); reflexivity.
  - congruence.
Qed.

Lemma count_ge_all_below (l : list Q) (e : Z) :
  (forall d, In d l -> d < inject_Z e)%Q -> count_ge l e = 0%nat.
Proof.
  unfold count_ge. induction l as [| x r IH]; intro H; simpl; [reflexivity |].
  assert (Hx : ge_int x e = false) by (apply ge_int_false, H; left; reflexivity).
  rewrite Hx. apply IH. intros d Hd. apply H. right. exact Hd.
Qed.

Lemma count_ge_cons (x : Q) (r : list Q) (e : Z) :
  count_ge (x :: r) e = ((if ge_int x e then 1 else 0) + count_ge r e)%nat.
Proof. unfold count_ge. simpl. destruct (ge_int x e); reflexivity. Qed.

Lemma desc_le (x y : Q) : desc x y <-> (y <= x)%Q.
Proof. unfold desc, is_true, DescOrder.leb. apply Qle_bool_iff. Qed.

Lemma desc_Transitive : Transitive desc.
Proof.
  intros x y z Hxy Hyz. apply desc_le in Hxy, Hyz. apply desc_le.
  eapply Qle_trans; eassumption.
Qed.

Lemma sorted_reverse_sorted (l : list Q) : StronglySorted desc (sorted_reverse l).
Proof. apply DescSort.StronglySorted_sort. exact desc_Transitive. Qed.

Lemma sorted_reverse_Permutation (l : list Q) : Permutation l (sorted_reverse l).
Proof. apply DescSort.Permuted_sort. Qed.

(** In a list sorted in descending order, the entry of rank [i+1] decides
    how many entries reach a threshold. *)
Lemma sorted_rank_count (l : list Q) (e : Z) :
  StronglySorted desc l ->
  forall (i : nat) (d : Q), nth_error l i = Some d ->
    (ge_int d e = true -> (S i <= count_ge l e)%nat) /\
    (ge_int d e = false -> (count_ge l e <= i)%nat).
Proof.
  induction 1 as [| x r Hr IH Hx]; intros i d Hi.
  - destruct i; discriminate Hi.
  - rewrite Forall_forall in Hx.
    destruct i as [| i]; simpl in Hi.
    + inversion Hi; subst d. split; intro Hd; rewrite count_ge_cons, Hd.
      * lia.
      * rewrite count_ge_all_below; [lia |].
        intros y Hy. apply ge_int_false in Hd.
        apply Hx, desc_le in Hy. eapply Qle_lt_trans; eassumption.
    + destruct (IH i d Hi) as [IHt IHf].
      split; intro Hd; rewrite count_ge_cons.
      * assert (Hxe : ge_int x e = true).
        { apply ge_int_true. apply ge_int_true in Hd.
          apply nth_error_In in Hi. apply Hx, desc_le in Hi.
          eapply Qle_trans; eassumption. }
        rewrite Hxe. specialize (IHt Hd). lia.
      * specialize (IHf Hd). destruct (ge_int x e); lia.
Qed.

Lemma qualifying_In (l : list Q) (e : Z) :
  In e (qualifying l) <->
  exists (i : nat) (d : Q),
    nth_error l i = Some d /\ e = 1 + Z.of_nat i /\ ge_int d e = true.
Proof.
  unfold qualifying. rewrite in_map_iff. split.
  - intros [[e' d] [He Hin]]. simpl in He. subst e'.
    apply filter_In in Hin. destruct Hin as [Hin Hge]. simpl in Hge.
    apply enumerate_In in Hin. destruct Hin as [i [Hi He]].
    exists i, d. auto.
  - intros [i [d [Hi [He Hge]]]]. exists (e, d). split; [reflexivity |].
    apply filter_In. split; [| exact Hge].
    apply enumerate_In. exists i. auto.
Qed.

(** On a sorted list the scan keeps exactly the ranks [e] with at least
    [e] entries [>= e]. *)
Lemma qualifying_sorted (l : list Q) (e : Z) :
  StronglySorted desc l ->
  (In e (qualifying l) <-> 1 <= e /\ at_least l e).
Proof.
  intro Hs. rewrite qualifying_In. unfold at_least. split.
  - intros [i [d [Hi [He Hge]]]].
    destruct (sorted_rank_count l e Hs i d Hi) as [Ht _].
    specialize (Ht Hge). lia.
  - intros [H1 Hc].
    pose proof (count_ge_le_length l e) as Hlen.
    assert (Hi : (Z.to_nat (e - 1) < List.length l)%nat) by lia.
    destruct (nth_error l (Z.to_nat (e - 1))) as [d |] eqn:Hn;
      [| apply nth_error_None in Hn; lia].
    exists (Z.to_nat (e - 1)), d. split; [exact Hn |]. split; [lia |].
    destruct (ge_int d e) eqn:Hge; [reflexivity |].
    destruct (sorted_rank_count l e Hs _ d Hn) as [_ Hf].
    specialize (Hf Hge). lia.
Qed.

Lemma at_least_sorted_reverse (l : list Q) (e : Z) :
  at_least (sorted_reverse l) e <-> at_least l e.
Proof.
  unfold at_least.
  rewrite (count_ge_Permutation _ _ e (sorted_reverse_Permutation l)).
  tauto.
Qed.

Lemma at_least_one (l : list Q) (d : Q) :
  In d l -> (1 <= d)%Q -> at_least l 1.
Proof.
  intros Hin Hd. unfold at_least.
  assert (In d (filter (fun d => ge_int d 1) l)) as Hf.
  { apply filter_In. split; [exact Hin | apply ge_int_true; exact Hd]. }
  unfold count_ge. destruct (filter (fun d => ge_int d 1) l); [contradiction |].
  simpl. lia.
Qed.

(** The value of [Ed_number], whenever some entry is at least 1. *)
Lemma Ed_number_max (l : list Q) :
  (exists d, In d l /\ (1 <= d)%Q) ->
  exists E, Ed_number l = Return E /\ 1 <= E /\ at_least l E /\
            forall e, at_least l e -> e <= E.
Proof.
  intros [d [Hin Hd]].
  pose proof (sorted_reverse_sorted l) as Hs.
  assert (H1 : In 1 (qualifying (sorted_reverse l))).
  { apply qualifying_sorted; [exact Hs |]. split; [lia |].
    apply at_least_sorted_reverse. eapply at_least_one; eassumption. }
  destruct (py_max_nonempty _ _ H1) as [E HE].
  exists E. split; [exact HE |].
  apply py_max_Return in HE. destruct HE as [HinE Hub].
  apply qualifying_sorted in HinE; [| exact Hs]. destruct HinE as [HE1 HEc].
  split; [exact HE1 |]. split; [apply at_least_sorted_reverse; exact HEc |].
  intros e He. destruct (Z_lt_le_dec e 1) as [Hlt | Hge]; [lia |].
  apply Hub. apply qualifying_sorted; [exact Hs |].
  split; [exact Hge | apply at_least_sorted_reverse; exact He].
Qed.

(** When no entry reaches 1 the generator is empty and [max] raises. *)
Lemma Ed_number_raises (l : list Q) :
  (forall d, In d l -> d < 1)%Q -> Ed_number l = Raise ValueError.
Proof.
  intro H. unfold Ed_number.
  destruct (qualifying (sorted_reverse l)) as [| e r] eqn:Hq; [reflexivity |].
  assert (He : In e (qualifying (sorted_reverse l))) by (rewrite Hq; left; reflexivity).
  apply qualifying_sorted in He; [| apply sorted_reverse_sorted].
  destruct He as [He1 Hc]. apply (proj1 (at_least_sorted_reverse l e)) in Hc.
  unfold at_least in Hc. rewrite count_ge_all_below in Hc; [simpl in Hc; lia |].
  intros d Hd. eapply Qlt_le_trans; [apply H, Hd |].
  change 1%Q with (inject_Z 1). rewrite <- Zle_Qle. exact He1.
Qed.

Lemma at_leastb_true (l : list Q) (e : Z) : at_leastb l e = true <-> at_least l e.
Proof. unfold at_leastb, at_least. apply Z.leb_le. Qed.

Lemma candidates_In (n : nat) (e : Z) :
  In e (candidates n) <-> 1 <= e <= Z.of_nat n.
Proof.
  unfold candidates. rewrite in_map_iff. split.
  - intros [i [He Hi]]. apply in_seq in Hi. lia.
  - intro H. exists (Z.to_nat (e - 1)). split; [lia |]. apply in_seq. lia.
Qed.

Lemma Ed_brute_max (l : list Q) :
  at_least l (Ed_brute l) /\ forall e, at_least l e -> e <= Ed_brute l.
Proof.
  unfold Ed_brute. split.
  - destruct (fold_max_attained
                (filter (at_leastb l) (candidates (List.length l))) 0) as [E | E].
    + rewrite E. unfold at_least. lia.
    + apply filter_In in E. apply at_leastb_true. apply E.
  - intros e He. destruct (Z_lt_le_dec e 1) as [Hlt | Hge].
    + pose proof (fold_max_lower
                    (filter (at_leastb l) (candidates (List.length l))) 0). lia.
    + apply fold_max_upper. apply filter_In. split.
      * apply candidates_In. unfold at_least in He.
        pose proof (count_ge_le_length l e). lia.
      * apply at_leastb_true. exact He.
Qed.

End EddingtonFacts.
(** ** Numbers: rounding and formatting respect the value *)

Module NumFacts.
Import Text Num.
Local Open Scope Q_scope.

Lemma Qltb_true (x y : Q) : Qltb x y = true <-> x < y.
Proof.
  unfold Qltb. rewrite negb_true_iff. split; intro H.
  - apply Qnot_le_lt. intro Hle. apply Qle_bool_iff in Hle. congruence.
  - destruct (Qle_bool y x) eqn:E; [| reflexivity].
    apply Qle_bool_iff in E. exfalso. exact (Qlt_not_le _ _ H E).
Qed.

Lemma Qltb_false (x y : Q) : Qltb x y = false <-> y <= x.
Proof.
  unfold Qltb. rewrite negb_false_iff. apply Qle_bool_iff.
Qed.


Lemma round_half_even_comp (x y : Q) :
  x == y -> round_half_even x = round_half_even y.
Proof.
  intro H. unfold round_half_even.
  assert (Hf : Qfloor x = Qfloor y) by (rewrite H; reflexivity).
  rewrite Hf.
  assert (Hc : Qcompare (x - inject_Z (Qfloor y)) (1 # 2) =
               Qcompare (y - inject_Z (Qfloor y)) (1 # 2)).
  { apply Qcompare_comp; [rewrite H |]; reflexivity. }
  rewrite Hc. reflexivity.
Qed.



End NumFacts.

(** ** [rounded]: its recursion is well defined *)

Module RoundedFacts.
Import Text Num NumFacts Badges.
Local Open Scope Q_scope.

Lemma bound_S (k : nat) : bound (S k) == 1000000 * bound k.
Proof.
  unfold bound. rewrite Nat2Z.inj_succ, Z.pow_succ_r by lia.
  rewrite inject_Z_mult. reflexivity.
Qed.

Lemma bound_div (k : nat) (x : Q) : x <= bound (S k) -> x / 1000000 <= bound k.
Proof.
  intro H. apply Qle_shift_div_r; [reflexivity |].
  rewrite bound_S in H. rewrite Qmult_comm. exact H.
Qed.

Lemma rounded_rec_base (k : nat) (x : Q) :
  Qltb 1000000 x = false -> rounded_rec k x = rounded_small x.
Proof. intro E. destruct k; cbn [rounded_rec]; rewrite E; reflexivity. Qed.

Lemma rounded_rec_step (k : nat) (x : Q) :
  Qltb 1000000 x = true ->
  rounded_rec (S k) x = (rounded_rec k (x / 1000000) ++ "M")%string.
Proof. intro E. cbn [rounded_rec]. rewrite E. reflexivity. Qed.

(** Any two sufficient depths give the same text. *)
Lemma rounded_rec_enough (k1 : nat) :
  forall (k2 : nat) (x : Q),
    x <= bound k1 -> x <= bound k2 -> rounded_rec k1 x = rounded_rec k2 x.
Proof.
  induction k1 as [| k1 IH]; intros k2 x H1 H2;
    destruct (Qltb 1000000 x) eqn:E;
    try (rewrite !rounded_rec_base by exact E; reflexivity).
  - apply Qltb_true in E. exfalso.
    apply (Qlt_not_le _ _ E). eapply Qle_trans; [exact H1 |].
    unfold bound. simpl. discriminate.
  - destruct k2 as [| k2].
    + apply Qltb_true in E. exfalso.
      apply (Qlt_not_le _ _ E). eapply Qle_trans; [exact H2 |].
      unfold bound. simpl. discriminate.
    + rewrite !rounded_rec_step by exact E. f_equal.
      apply IH; apply bound_div; assumption.
Qed.

Lemma rounded_depth_enough (x : Q) : x <= bound (rounded_depth x).
Proof.
  unfold bound, rounded_depth.
  eapply Qle_trans; [apply Qle_ceiling |].
  rewrite <- Zle_Qle.
  pose proof (Z.log2_up_nonneg (Qceiling x)) as Hn.
  rewrite Z2Nat.id by exact Hn.
  apply Z.le_trans with (m := (2 ^ Z.log2_up (Qceiling x))%Z).
  - destruct (Z_lt_le_dec 1 (Qceiling x)) as [H | H].
    + apply Z.log2_up_spec. exact H.
    + pose proof (Z.pow_pos_nonneg 2 (Z.log2_up (Qceiling x))). lia.
  - apply Z.pow_le_mono_l. lia.
Qed.



(** The defining equation of [rounded], as the source has it. *)
Lemma rounded_equation (x : Q) :
  rounded x =
  if Qltb 1000000 x then (rounded (x / 1000000) ++ "M")%string
  else rounded_small x.
Proof.
  unfold rounded. destruct (Qltb 1000000 x) eqn:E.
  - rewrite (rounded_rec_enough _ (S (rounded_depth (x / 1000000))) x).
    + apply rounded_rec_step. exact E.
    + apply rounded_depth_enough.
    + rewrite bound_S.
      pose proof (rounded_depth_enough (x / 1000000)) as Hb.
      assert (Hx : x == x / 1000000 * 1000000) by field.
      rewrite Hx at 1. rewrite Qmult_comm.
      apply Qmult_le_l; [reflexivity | exact Hb].
  - apply rounded_rec_base. exact E.
Qed.


End RoundedFacts.

(** ** The tier table and the scan of [to_go] *)

Module BadgeFacts.
Import Text Num NumFacts Badges RoundedFacts.
Local Open Scope Q_scope.



Section Scan.
Variables (done miles : Q) (table : dict).




End Scan.


Lemma badge_scan_none (tiers : list Z) (p : Q) :
  (forall t, In t tiers -> Qle_bool (inject_Z t) p = false) ->
  badge_scan tiers p = "none"%string.
Proof.
  induction tiers as [| t r IH]; intro H; simpl; [reflexivity |].
  rewrite (H t) by (left; reflexivity).
  apply IH. intros t' Ht'. apply H. right. exact Ht'.
Qed.

Lemma Qle_bool_false (x y : Q) : Qle_bool x y = false <-> y < x.
Proof.
  split; intro H.
  - apply Qnot_le_lt. intro Hle. apply Qle_bool_iff in Hle. congruence.
  - destruct (Qle_bool x y) eqn:E; [| reflexivity].
    apply Qle_bool_iff in E. exfalso. exact (Qlt_not_le _ _ H E).
Qed.

End BadgeFacts.

(** ** Time parsing: the sum over the reversed fields *)

Module ParsingFacts.
Import Text Num NumFacts Parsing.
Local Open Scope Q_scope.






End ParsingFacts.

(** ** Ride columns: entries are computed row by row *)

Module RideFacts.
Import Text Num Rides.
Local Open Scope Q_scope.

Lemma nth_error_zip_with {A B C : Type} (f : A -> B -> C) (xs : list A) :
  forall (ys : list B) (i : nat) (x : A) (y : B),
    nth_error xs i = Some x -> nth_error ys i = Some y ->
    nth_error (zip_with f xs ys) i = Some (f x y).
Proof.
  induction xs as [| x0 xs IH]; intros ys i x y Hx Hy.
  - destruct i; discriminate Hx.
  - destruct ys as [| y0 ys]; [destruct i; discriminate Hy |].
    destruct i as [| i]; simpl in *.
    + congruence.
    + apply IH; assumption.
Qed.

Lemma np_div_by_zero (x y : npfloat) :
  is_zero y = true -> is_finite (np_div x y) = false.
Proof.
  destruct y as [b | |]; simpl; try discriminate.
  intro Hb. destruct x as [a | s |]; simpl; try reflexivity.
  rewrite Hb. destruct (Qeq_bool a 0); reflexivity.
Qed.

Lemma np_div_scalar_not_finite (x : npfloat) (c : Q) :
  is_finite x = false -> is_finite (np_div x (scalar c)) = false.
Proof. destruct x; simpl; [discriminate | reflexivity | reflexivity]. Qed.

Lemma np_mul_scalar_not_finite (x : npfloat) (c : Q) :
  is_finite x = false -> is_finite (np_mul x (scalar c)) = false.
Proof.
  destruct x; simpl; [discriminate | | reflexivity].
  intros _. destruct (Qeq_bool c 0); reflexivity.
Qed.

Lemma np_round_not_finite (x : npfloat) (n : nat) :
  is_finite x = false -> is_finite (np_round x n) = false.
Proof. destruct x; simpl; [discriminate | reflexivity | reflexivity]. Qed.

End RideFacts.

(** * The specification's claims *)

Import Text Num NumFacts Parsing ParsingFacts Badges RoundedFacts BadgeFacts.
Import Rides RideFacts Eddington EddingtonFacts.
Local Open Scope Q_scope.
Local Open Scope string_scope.

(** Comparisons between rational constants. *)
Ltac q_decide := unfold Qle, Qlt in *; simpl in *; lia.

(** ** Eddington number *)

(** C1. For every list of distances with at least one entry [>= 1] (such a
    list is not empty), [Ed_number] returns the maximum integer [E] such
    that at least [E] entries are [>= E]: [E] has the property, no larger
    integer has it, and [E] is the brute-force maximum over the candidate
    values. *)
Theorem Ed_number_is_maximum (column : list Q) :
  (exists d, In d column /\ 1 <= d) ->
  exists E : Z,
    Ed_number column = Return E /\
    at_least column E /\
    (forall e : Z, at_least column e -> (e <= E)%Z) /\
    E = Ed_brute column.
Proof.
  intro H. destruct (Ed_number_max column H) as [E [HE [_ [Hat Hmax]]]].
  exists E. repeat split; try assumption.
  destruct (Ed_brute_max column) as [Bat Bmax].
  apply Z.le_antisymm; [apply Bmax; exact Hat | apply Hmax; exact Bat].
Qed.

Lemma Ed_number_is_maximum_witness :
  exists E : Z,
    Ed_number [1; 2; 3; 4; 5] = Return E /\
    at_least [1; 2; 3; 4; 5] E /\
    (forall e : Z, at_least [1; 2; 3; 4; 5] e -> (e <= E)%Z) /\
    E = Ed_brute [1; 2; 3; 4; 5].
Proof.
  apply (Ed_number_is_maximum [1; 2; 3; 4; 5]).
  exists 1. split; [left; reflexivity | q_decide].
Defined.

(** C2. On an empty list, and on a list whose distances are all below 1,
    [Ed_number] does not return 0: the generator is empty and [max]
    raises [ValueError]. *)
Theorem Ed_number_empty_raises :
  Ed_number [] = Raise ValueError /\
  Ed_number [1 # 2] = Raise ValueError /\
  Ed_number [0; 3 # 4; 99 # 100] = Raise ValueError.
Proof. repeat split; vm_compute; reflexivity. Qed.

(** C10. [Ed_number] does not depend on the order of the distances: on a
    list with at least one entry [>= 1] and on any reordering of it, it
    returns the same number. *)
Theorem Ed_number_permutation (column column' : list Q) :
  (exists d, In d column /\ 1 <= d) ->
  Permutation column column' ->
  exists E : Z, Ed_number column = Return E /\ Ed_number column' = Return E.
Proof.
  intros H HP.
  assert (H' : exists d, In d column' /\ 1 <= d).
  { destruct H as [d [Hin Hd]]. exists d. split; [| exact Hd].
    eapply Permutation_in; eassumption. }
  destruct (Ed_number_max column H) as [E [HE [_ [Hat Hmax]]]].
  destruct (Ed_number_max column' H') as [E' [HE' [_ [Hat' Hmax']]]].
  assert (Hiff : forall e, at_least column e <-> at_least column' e).
  { intro e. unfold at_least. rewrite (count_ge_Permutation _ _ e HP). tauto. }
  assert (E = E') as <-.
  { apply Z.le_antisymm.
    - apply Hmax'. apply Hiff. exact Hat.
    - apply Hmax. apply Hiff. exact Hat'. }
  exists E. split; assumption.
Qed.

Lemma Ed_number_permutation_witness :
  exists E : Z,
    Ed_number [5; 4; 3; 2; 1] = Return E /\ Ed_number [1; 2; 3; 4; 5] = Return E.
Proof.
  apply (Ed_number_permutation [5; 4; 3; 2; 1] [1; 2; 3; 4; 5]).
  - exists 5. split; [left; reflexivity | q_decide].
  - exact (Permutation_rev [5; 4; 3; 2; 1]).
Defined.

(** ** Badges and progress *)



(** C4, as amended. For [p = 20] and [m = 1000] with the fine-grained
    table, [to_go] reports the 25% tier with delta 50 and 300 points;
    [rounded] renders 50 as "50" (it is above 10, so it is printed as an
    integer), right-aligned in five columns, and 300 as "300". *)
Theorem to_go_example :
  to_go 20 1000 bonuses = Return "   50 mi to 25% (300 points)" /\
  to_go 20 1000 bonuses = Return (report 50 (PyInt 25) 300) /\
  25 * 1000 / 100 - 20 * 1000 / 100 == 50 /\
  (25 # 100) * 1000 + 50 == 300 /\
  rounded 50 = "50" /\
  rounded 300 = "300".
Proof. repeat split; vm_compute; reflexivity. Qed.

(** C4 as stated fails: the delta is not rendered as "50.0". *)
Lemma to_go_example_not_50_0 :
  rounded 50 <> "50.0" /\
  to_go 20 1000 bonuses <> Return " 50.0 mi to 25% (300 points)".
Proof. split; intro H; vm_compute in H; discriminate H. Qed.

(** C5, as amended. [rounded(1500000)] is "1.5M", [rounded(15)] is "15",
    [rounded(5.3)] is "5.3", and [rounded] follows the rule: above a
    million, format [x / 1e6] recursively and append "M"; above a hundred
    thousand, [x / 1e6] with two decimals and "M"; above ten, a
    thousands-grouped integer; otherwise one decimal. *)
Theorem rounded_rule :
  rounded 1500000 = "1.5M" /\
  rounded 15 = "15" /\
  rounded 5.3 = "5.3" /\
  forall x : Q,
    rounded x =
    if Qltb 1000000 x then rounded (x / 1000000) ++ "M"
    else if Qltb 100000 x then pad_left 4 (format_f 2 (x / 1000000)) ++ "M"
    else if Qltb 10 x then format_grouped (round_half_even x)
    else format_f 1 x.
Proof.
  repeat split; try (vm_compute; reflexivity).
  intro x. apply rounded_equation.
Qed.

(** C5 as stated fails: a million and a half takes the recursive case. *)
Lemma rounded_1500000_not_1_50M : rounded 1500000 <> "1.50M".
Proof. intro H; vm_compute in H; discriminate H. Qed.

(** C6. [badge(p)] is the highest tier of 99, 90, 75, 50, 25 that [p]
    reaches, with a percent sign, and "none" when [p < 25]. *)
Theorem badge_highest_tier (p : Q) :
  (p < 25 -> badge p = "none") /\
  (forall t : Z,
      In t badge_tiers -> inject_Z t <= p ->
      (forall t' : Z, In t' badge_tiers -> inject_Z t' <= p -> (t' <= t)%Z) ->
      badge p = str_int t ++ "%") /\
  badge 99.94 = "99%" /\
  badge 24.9 = "none" /\
  badge 100 = "99%".
Proof.
  split; [| split; [| repeat split; vm_compute; reflexivity]].
  - intro Hp. apply badge_scan_none. intros t Ht.
    apply Qle_bool_false. eapply Qlt_le_trans; [exact Hp |].
    change 25 with (inject_Z 25). rewrite <- Zle_Qle.
    simpl in Ht. lia.
  - intros t Ht Hp Hmax.
    assert (Hhigher : forall t', In t' badge_tiers -> (t < t')%Z ->
                                 Qle_bool (inject_Z t') p = false).
    { intros t' Ht' Hlt. destruct (Qle_bool (inject_Z t') p) eqn:E; [| reflexivity].
      apply Qle_bool_iff in E. specialize (Hmax t' Ht' E). lia. }
    apply Qle_bool_iff in Hp.
    unfold badge, badge_tiers in *. simpl in Ht.
    repeat (destruct Ht as [<- | Ht];
            [cbn [badge_scan];
             repeat (rewrite Hhigher by (simpl; auto 6; lia));
             rewrite Hp; reflexivity |]).
    contradiction.
Qed.

Lemma badge_highest_tier_witness : badge 60 = "50%".
Proof.
  apply (proj1 (proj2 (badge_highest_tier 60)) 50%Z).
  - simpl. auto.
  - q_decide.
  - intros t' Ht' Hle. simpl in Ht'.
    repeat (destruct Ht' as [<- | Ht']; [q_decide |]).
    contradiction.
Defined.

(** ** Ride columns *)

(** C7, as amended. [add_ride_columns] has no check on its divisors: a
    record with [hours = 0] or [miles = 0] is not rejected. Whenever the
    year column can be filled in, the frame is returned, and in it [mph]
    and [vam] are infinite or NaN where [hours = 0], [fpmi] and [pct] are
    infinite or NaN where [miles = 0]. *)
Theorem zero_divisor_not_rejected (f f' : frame) :
  insert_year f = Return f' ->
  exists r : ride_frame,
    add_ride_columns f = Return r /\
    forall (i : nat) (mi hr : npfloat) (ft : Z),
      nth_error (miles f) i = Some mi ->
      nth_error (hours f) i = Some hr ->
      nth_error (feet f) i = Some ft ->
      (is_zero hr = true ->
       exists a b,
         nth_error (mph r) i = Some a /\ nth_error (vam r) i = Some b /\
         is_finite a = false /\ is_finite b = false) /\
      (is_zero mi = true ->
       exists a b,
         nth_error (fpmi r) i = Some a /\ nth_error (pct r) i = Some b /\
         is_finite a = false /\ is_finite b = false).
Proof.
  intro Hy. unfold add_ride_columns. rewrite Hy. simpl.
  eexists. split; [reflexivity |].
  intros i mi hr ft Hmi Hhr Hft. simpl.
  assert (Hft' : nth_error (map (fun z => Fin (inject_Z z)) (feet f)) i =
                 Some (Fin (inject_Z ft))).
  { rewrite nth_error_map, Hft. reflexivity. }
  split; intro Hz.
  - do 2 eexists. rewrite !nth_error_map.
    rewrite (nth_error_zip_with np_div _ _ i _ _ Hmi Hhr).
    rewrite (nth_error_zip_with np_div _ _ i _ _ Hft' Hhr). cbn [option_map].
    split; [reflexivity |]. split; [reflexivity |]. split.
    + apply np_round_not_finite, np_div_by_zero, Hz.
    + apply np_round_not_finite, np_div_scalar_not_finite, np_div_by_zero, Hz.
  - do 2 eexists. rewrite !nth_error_map.
    rewrite (nth_error_zip_with np_div _ _ i _ _ Hft' Hmi). cbn [option_map].
    split; [reflexivity |]. split; [reflexivity |]. split.
    + apply np_round_not_finite, np_div_by_zero, Hz.
    + apply np_round_not_finite, np_div_scalar_not_finite,
        np_mul_scalar_not_finite, np_div_by_zero, Hz.
Qed.

Lemma zero_divisor_not_rejected_witness :
  exists r : ride_frame,
    add_ride_columns {| date := Some ["10/5/2020"]; year := None;
                        miles := [Fin 0]; hours := [Fin 0];
                        feet := [541%Z] |} = Return r /\
    forall (i : nat) (mi hr : npfloat) (ft : Z),
      nth_error [Fin 0] i = Some mi ->
      nth_error [Fin 0] i = Some hr ->
      nth_error [541%Z] i = Some ft ->
      (is_zero hr = true ->
       exists a b,
         nth_error (mph r) i = Some a /\ nth_error (vam r) i = Some b /\
         is_finite a = false /\ is_finite b = false) /\
      (is_zero mi = true ->
       exists a b,
         nth_error (fpmi r) i = Some a /\ nth_error (pct r) i = Some b /\
         is_finite a = false /\ is_finite b = false).
Proof.
  apply (zero_divisor_not_rejected
           {| date := Some ["10/5/2020"]; year := None;
              miles := [Fin 0]; hours := [Fin 0]; feet := [541%Z] |}
           {| date := Some ["10/5/2020"]; year := Some [2020%Z];
              miles := [Fin 0]; hours := [Fin 0]; feet := [541%Z] |}).
  reflexivity.
Defined.

(** C7 as stated fails: a ride of ten miles in zero hours is returned
    with an infinite speed and an infinite climb rate. *)
Lemma zero_hours_returns_inf :
  exists r : ride_frame,
    add_ride_columns {| date := None; year := None;
                        miles := [Fin 10]; hours := [Fin 0];
                        feet := [100%Z] |} = Return r /\
    mph r = [Inf false] /\ vam r = [Inf false].
Proof. eexists. split; [reflexivity |]. split; reflexivity. Qed.

(** ** Time parsing *)



(** ** Curve fitting *)

(** The function [poly_fit] returns evaluates the polynomial of the
    coefficients it was given: for the coefficients of [2x + 1] it is
    [2x + 1]. *)
Lemma evaluator_linear (x : Q) : Fit.evaluator [2; 1] x == 2 * x + 1.
Proof.
  unfold Fit.evaluator, py_sum. simpl. ring.
Qed.

(** * Further properties of the code *)

(** ** Eddington numbers, gaps and progress *)

Module GapFacts.
Import Gaps.

Lemma count_fold (column : list bool) :
  forall acc,
    fold_left (fun acc (b : bool) => acc + (if b then 1 else 0))%Z column acc =
    (acc + Z.of_nat (List.length (filter (fun b => b) column)))%Z.
Proof.
  induction column as [| b r IH]; intro acc; simpl; [lia |].
  rewrite IH. destruct b; simpl; lia.
Qed.

Lemma filter_map_length {A : Type} (f : A -> bool) (l : list A) :
  List.length (filter (fun b => b) (map f l)) = List.length (filter f l).
Proof.
  induction l as [| x r IH]; simpl; [reflexivity |].
  destruct (f x); simpl; congruence.
Qed.

Lemma Ed_gap_count (distances : list Q) (target : Z) :
  Ed_gap distances target = (target - Z.of_nat (count_ge distances target))%Z.
Proof.
  unfold Ed_gap, count, count_ge. rewrite count_fold, filter_map_length. lia.
Qed.

Lemma count_ge_app (a b : list Q) (e : Z) :
  count_ge (a ++ b) e = (count_ge a e + count_ge b e)%nat.
Proof. unfold count_ge. rewrite filter_app, length_app. reflexivity. Qed.

Lemma count_ge_antitone (l : list Q) (e e' : Z) :
  (e <= e')%Z -> (count_ge l e' <= count_ge l e)%nat.
Proof.
  intro H. induction l as [| x r IH]; [unfold count_ge; simpl; lia |].
  rewrite !count_ge_cons.
  destruct (ge_int x e') eqn:E'; [| destruct (ge_int x e); lia].
  assert (E : ge_int x e = true).
  { apply ge_int_true. apply ge_int_true in E'.
    eapply Qle_trans; [| exact E']. rewrite <- Zle_Qle. exact H. }
  rewrite E. lia.
Qed.

Lemma count_ge_all (l : list Q) (e : Z) :
  (forall d, In d l -> (inject_Z e <= d)%Q) -> count_ge l e = List.length l.
Proof.
  induction l as [| x r IH]; intro H; [reflexivity |].
  rewrite count_ge_cons.
  assert (E : ge_int x e = true) by (apply ge_int_true, H; left; reflexivity).
  rewrite E, IH; [reflexivity |]. intros d Hd. apply H. right. exact Hd.
Qed.

Lemma at_least_exists (l : list Q) (e : Z) :
  (1 <= e)%Z -> at_least l e -> exists d, In d l /\ (1 <= d)%Q.
Proof.
  intros He Hat. unfold at_least, count_ge in Hat.
  destruct (filter (fun d => ge_int d e) l) as [| d r] eqn:Hf;
    [simpl in Hat; lia |].
  assert (Hin : In d (filter (fun d => ge_int d e) l)) by (rewrite Hf; left; reflexivity).
  apply filter_In in Hin. destruct Hin as [Hin Hge].
  exists d. split; [exact Hin |]. apply ge_int_true in Hge.
  eapply Qle_trans; [| exact Hge].
  change 1%Q with (inject_Z 1). rewrite <- Zle_Qle. exact He.
Qed.

(** What a returned Eddington number is. *)
Lemma Ed_number_Return (l : list Q) (E : Z) :
  Ed_number l = Return E <->
  (1 <= E)%Z /\ at_least l E /\ forall e, at_least l e -> (e <= E)%Z.
Proof.
  split.
  - intro H. pose proof H as H0. unfold Ed_number in H0.
    apply py_max_Return in H0. destruct H0 as [Hin _].
    apply qualifying_sorted in Hin; [| apply sorted_reverse_sorted].
    destruct Hin as [H1 Hat]. apply (proj1 (at_least_sorted_reverse l E)) in Hat.
    destruct (Ed_number_max l (at_least_exists l E H1 Hat)) as [E' [HE' Hrest]].
    assert (E' = E) by congruence. subst E'. exact Hrest.
  - intros [H1 [Hat Hmax]].
    destruct (Ed_number_max l (at_least_exists l E H1 Hat)) as [E' [HE' [_ [Hat' Hmax']]]].
    rewrite HE'. f_equal. apply Z.le_antisymm; auto.
Qed.

(** More rides at every threshold never lower the Eddington number. *)
Lemma Ed_number_mono (c c' : list Q) (E : Z) :
  (forall e, (count_ge c e <= count_ge c' e)%nat) ->
  Ed_number c = Return E ->
  exists E', Ed_number c' = Return E' /\ (E <= E')%Z.
Proof.
  intros Hc H. apply Ed_number_Return in H. destruct H as [H1 [Hat _]].
  assert (Hat' : at_least c' E).
  { unfold at_least in *. specialize (Hc E). lia. }
  destruct (Ed_number_max c' (at_least_exists c' E H1 Hat')) as [E' [HE' [_ [_ Hmax]]]].
  exists E'. split; [exact HE' | apply Hmax; exact Hat'].
Qed.

Lemma count_ge_select (years : list Z) (y1 y2 : Z) (e : Z) :
  (y1 <= y2)%Z ->
  forall column : list Q,
    (count_ge (select (map (fun y => y <=? y1)%Z years) column) e <=
     count_ge (select (map (fun y => y <=? y2)%Z years) column) e)%nat.
Proof.
  intro Hy. induction years as [| y r IH]; intros [| x column]; simpl;
    try (unfold count_ge; simpl; lia).
  specialize (IH column).
  destruct (y <=? y1)%Z eqn:E1.
  - assert (E2 : (y <=? y2)%Z = true) by (apply Z.leb_le; apply Z.leb_le in E1; lia).
    rewrite E2, !count_ge_cons. lia.
  - destruct (y <=? y2)%Z; [rewrite count_ge_cons |]; lia.
Qed.

Lemma Ed_rows_In (years : list Z) (kms miles : list Q) (cutoffs : list Z) :
  forall rows,
    Ed_rows years kms miles cutoffs = Return rows ->
    forall y k m, In (y, k, m) rows ->
      Ed years kms y = Return k /\ Ed years miles y = Return m.
Proof.
  induction cutoffs as [| c rest IH]; intros rows H y k m Hin; simpl in H.
  - inversion H; subst. contradiction.
  - destruct (Ed years kms c) as [ek |] eqn:Ek; simpl in H; [| discriminate].
    destruct (Ed years miles c) as [em |] eqn:Em; simpl in H; [| discriminate].
    destruct (Ed_rows years kms miles rest) as [rows' |] eqn:Er; simpl in H;
      [| discriminate].
    inversion H; subst rows. destruct Hin as [Heq | Hin].
    + inversion Heq; subst. auto.
    + eapply IH; [reflexivity | exact Hin].
Qed.

End GapFacts.

Import Gaps GapFacts.

(** X1. [Ed_number] raises [ValueError] exactly when no distance reaches
    1 (in particular on an empty column); it raises nothing else. *)
Theorem Ed_number_raises_iff (column : list Q) :
  (Ed_number column = Raise ValueError <-> forall d, In d column -> d < 1) /\
  (forall e, Ed_number column = Raise e -> e = ValueError).
Proof.
  assert (Hdec : (forall d, In d column -> d < 1) \/ exists d, In d column /\ 1 <= d).
  { induction column as [| x r IH]; [left; intros d []|].
    destruct (Qlt_le_dec x 1) as [Hx | Hx].
    - destruct IH as [IH | [d [Hin Hd]]].
      + left. intros d [<- | Hd]; auto.
      + right. exists d. split; [right; exact Hin | exact Hd].
    - right. exists x. split; [left; reflexivity | exact Hx]. }
  split; [split |].
  - intros H d Hin. destruct Hdec as [Hall | Hex]; [auto |].
    destruct (Ed_number_max column Hex) as [E [HE _]]. congruence.
  - apply Ed_number_raises.
  - intros e H. destruct Hdec as [Hall | Hex].
    + rewrite (Ed_number_raises column Hall) in H. congruence.
    + destruct (Ed_number_max column Hex) as [E [HE _]]. congruence.
Qed.

(** X2. A returned Eddington number is at least 1 and at most the number
    of rides. *)
Theorem Ed_number_bounds (column : list Q) (E : Z) :
  Ed_number column = Return E ->
  (1 <= E <= Z.of_nat (List.length column))%Z.
Proof.
  intro H. apply Ed_number_Return in H. destruct H as [H1 [Hat _]].
  unfold at_least in Hat. pose proof (count_ge_le_length column E). lia.
Qed.

Lemma Ed_number_bounds_witness :
  (1 <= 5 <= Z.of_nat (List.length [10; 10; 10; 5; 5; 5; 5; 5; 5; 5]))%Z.
Proof.
  apply (Ed_number_bounds [10; 10; 10; 5; 5; 5; 5; 5; 5; 5] 5). reflexivity.
Defined.

(** X3. Recording more rides never lowers the Eddington number. *)
Theorem Ed_number_more_rides (column more : list Q) (E : Z) :
  Ed_number column = Return E ->
  exists E', Ed_number (column ++ more) = Return E' /\ (E <= E')%Z.
Proof.
  apply Ed_number_mono. intro e. rewrite count_ge_app. lia.
Qed.

Lemma Ed_number_more_rides_witness :
  exists E', Ed_number ([1; 2; 3; 4; 5] ++ [4; 4]) = Return E' /\ (3 <= E')%Z.
Proof.
  apply (Ed_number_more_rides [1; 2; 3; 4; 5] [4; 4] 3). reflexivity.
Defined.

(** X4. [Ed_gap] rides are enough: after at least [Ed_gap(distances, T)]
    more rides of length [T] or more, the Eddington number is at least
    [T]. *)
Theorem Ed_gap_enough (distances more : list Q) (target : Z) :
  (1 <= target)%Z ->
  (Ed_gap distances target <= Z.of_nat (List.length more))%Z ->
  (forall d, In d more -> inject_Z target <= d) ->
  exists E, Ed_number (distances ++ more) = Return E /\ (target <= E)%Z.
Proof.
  intros H1 Hgap Hmore. rewrite Ed_gap_count in Hgap.
  assert (Hat : at_least (distances ++ more) target).
  { unfold at_least. rewrite count_ge_app, (count_ge_all more target Hmore). lia. }
  destruct (Ed_number_max _ (at_least_exists _ target H1 Hat)) as [E [HE [_ [_ Hmax]]]].
  exists E. split; [exact HE | apply Hmax; exact Hat].
Qed.

Lemma Ed_gap_enough_witness :
  exists E, Ed_number ([1; 2; 3; 4; 5] ++ [4; 9]) = Return E /\ (4 <= E)%Z.
Proof.
  apply (Ed_gap_enough [1; 2; 3; 4; 5] [4; 9] 4).
  - lia.
  - vm_compute. discriminate.
  - intros d [<- | [<- | []]]; q_decide.
Defined.

(** X5. [Ed_gap] rides are needed: with fewer than [Ed_gap(distances, T)]
    more rides, whatever their length, the Eddington number stays below
    [T]. *)
Theorem Ed_gap_needed (distances more : list Q) (target E : Z) :
  (Z.of_nat (List.length more) < Ed_gap distances target)%Z ->
  Ed_number (distances ++ more) = Return E ->
  (E < target)%Z.
Proof.
  intros Hgap H. rewrite Ed_gap_count in Hgap.
  apply Ed_number_Return in H. destruct H as [_ [Hat _]].
  destruct (Z_lt_le_dec E target) as [Hlt | Hge]; [exact Hlt |].
  exfalso. unfold at_least in Hat.
  pose proof (count_ge_antitone (distances ++ more) target E Hge) as Hanti.
  rewrite (count_ge_app distances more target) in Hanti.
  pose proof (count_ge_le_length more target). lia.
Qed.

Lemma Ed_gap_needed_witness : (3 < 4)%Z.
Proof.
  apply (Ed_gap_needed [1; 2; 3; 4; 5] [100] 4 3).
  - vm_compute. reflexivity.
  - reflexivity.
Defined.

(** X6. The table of [Ed_gaps] has [N] rows, and every gap in it is at
    least 1 and at most its target: none of the listed targets is reached
    yet. *)
Theorem Ed_gaps_rows (kms miles : list Q) (N : nat) (rows : list (Z * Z * Z * Z)) :
  Ed_gaps kms miles N = Return rows ->
  List.length rows = N /\
  forall t g t' g', In (t, g, t', g') rows ->
    (1 <= g <= t)%Z /\ (1 <= g' <= t')%Z.
Proof.
  unfold Ed_gaps. intro H.
  destruct (Ed_number kms) as [ek |] eqn:Ek; simpl in H; [| discriminate].
  destruct (Ed_number miles) as [em |] eqn:Em; simpl in H; [| discriminate].
  inversion H; subst rows; clear H. unfold for_range. split.
  - rewrite length_map, length_seq. reflexivity.
  - intros t g t' g' Hin. apply in_map_iff in Hin.
    destruct Hin as [d [Heq _]]. inversion Heq; subst; clear Heq.
    apply Ed_number_Return in Ek, Em.
    destruct Ek as [Hk1 [_ Hkmax]]. destruct Em as [Hm1 [_ Hmmax]].
    rewrite !Ed_gap_count.
    assert (Hgap : forall (col : list Q) (E T : Z),
               (forall e, at_least col e -> (e <= E)%Z) -> (E < T)%Z ->
               (1 <= T - Z.of_nat (count_ge col T) <= T)%Z).
    { intros col E T Hmax HT. split; [| lia].
      destruct (Z_lt_le_dec (Z.of_nat (count_ge col T)) T) as [Hlt | Hge]; [lia |].
      specialize (Hmax T Hge). lia. }
    split; eapply Hgap; eauto; lia.
Qed.

Lemma Ed_gaps_rows_witness :
  List.length [(4, 2, 2, 2); (5, 4, 3, 3); (6, 6, 4, 4)]%Z = 3%nat /\
  forall t g t' g', In (t, g, t', g') [(4, 2, 2, 2); (5, 4, 3, 3); (6, 6, 4, 4)]%Z ->
    (1 <= g <= t)%Z /\ (1 <= g' <= t')%Z.
Proof.
  apply (Ed_gaps_rows [1; 2; 3; 4; 5] [1; 1; 1] 3). reflexivity.
Defined.

(** X7. In the table of [Ed_progress], a later year never has a smaller
    Eddington number, in kilometers or in miles. *)
Theorem Ed_progress_monotone (years : list Z) (kms miles : list Q)
        (cutoffs : list Z) (rows : list (Z * Z * Z)) :
  Ed_progress years kms miles cutoffs = Return rows ->
  forall y1 k1 m1 y2 k2 m2,
    In (y1, k1, m1) rows -> In (y2, k2, m2) rows -> (y1 <= y2)%Z ->
    (k1 <= k2)%Z /\ (m1 <= m2)%Z.
Proof.
  unfold Ed_progress. intros H y1 k1 m1 y2 k2 m2 Hin1 Hin2 Hy.
  destruct (Ed_rows_In _ _ _ _ _ H _ _ _ Hin1) as [Hk1 Hm1].
  destruct (Ed_rows_In _ _ _ _ _ H _ _ _ Hin2) as [Hk2 Hm2].
  unfold Ed in *. split.
  - destruct (Ed_number_mono _ _ k1 (fun e => count_ge_select years y1 y2 e Hy kms) Hk1)
      as [E' [HE' Hle]]. congruence.
  - destruct (Ed_number_mono _ _ m1 (fun e => count_ge_select years y1 y2 e Hy miles) Hm1)
      as [E' [HE' Hle]]. congruence.
Qed.

Lemma Ed_progress_monotone_witness : (1 <= 3)%Z /\ (1 <= 2)%Z.
Proof.
  apply (Ed_progress_monotone [2014; 2015; 2016]%Z [5; 5; 5] [1; 2; 3]
           [2016; 2015; 2014]%Z
           [(2016, 3, 2); (2015, 2, 1); (2014, 1, 1)]%Z eq_refl
           2014%Z 1%Z 1%Z 2016%Z 3%Z 2%Z).
  - simpl. auto.
  - simpl. auto.
  - lia.
Defined.

(** ** Text: splitting, replacing, numerals *)

Module TextFacts.
Import Text Fields Numerals.

Lemma append_empty (s : string) : (s ++ "")%string = s.
Proof. induction s as [| c r IH]; simpl; congruence. Qed.

Lemma append_assoc (a b c : string) : ((a ++ b) ++ c = a ++ (b ++ c))%string.
Proof. induction a as [| x r IH]; simpl; congruence. Qed.

Lemma all_chars_impl (P Q : ascii -> bool) (s : string) :
  (forall c, P c = true -> Q c = true) ->
  all_chars P s = true -> all_chars Q s = true.
Proof.
  intro H. induction s as [| c r IH]; simpl; [reflexivity |].
  intro Hs. apply andb_true_iff in Hs. destruct Hs as [Hc Hr].
  rewrite (H c Hc), (IH Hr). reflexivity.
Qed.

Lemma all_chars_app (P : ascii -> bool) (a b : string) :
  all_chars P (a ++ b) = all_chars P a && all_chars P b.
Proof.
  induction a as [| c r IH]; simpl; [reflexivity |].
  rewrite IH. apply andb_assoc.
Qed.

Lemma contains_differs (x : ascii) (s : string) :
  contains x s = false <-> all_chars (differs x) s = true.
Proof.
  unfold differs. induction s as [| c r IH]; simpl; [tauto |].
  rewrite orb_false_iff, andb_true_iff, negb_true_iff, IH. tauto.
Qed.

Lemma occurrences_zero (x : ascii) (s : string) :
  occurrences x s = 0%nat <-> contains x s = false.
Proof.
  induction s as [| c r IH]; simpl; [tauto |].
  rewrite orb_false_iff, <- IH. destruct (Ascii.eqb c x); simpl; split.
  - discriminate.
  - intros [H _]; discriminate H.
  - auto.
  - tauto.
Qed.

(** *** [split] *)

Lemma split_nonempty (sep : ascii) (s : string) : split sep s <> [].
Proof.
  destruct s as [| c r]; simpl; [discriminate |].
  destruct (Ascii.eqb c sep); [discriminate |].
  destruct (split sep r); discriminate.
Qed.

Lemma split_absent (sep : ascii) (s : string) :
  contains sep s = false -> split sep s = [s].
Proof.
  induction s as [| c r IH]; simpl; [reflexivity |].
  intro H. apply orb_false_iff in H. destruct H as [Hc Hr].
  rewrite Hc, (IH Hr). reflexivity.
Qed.

Lemma split_first (sep : ascii) (a b : string) :
  contains sep a = false ->
  split sep (a ++ String sep b) = a :: split sep b.
Proof.
  induction a as [| c r IH]; simpl.
  - intros _. rewrite Ascii.eqb_refl. reflexivity.
  - intro H. apply orb_false_iff in H. destruct H as [Hc Hr].
    rewrite Hc, (IH Hr). reflexivity.
Qed.

Lemma split_length (sep : ascii) (s : string) :
  List.length (split sep s) = S (occurrences sep s).
Proof.
  induction s as [| c r IH]; simpl; [reflexivity |].
  destruct (Ascii.eqb c sep); simpl; [rewrite IH; reflexivity |].
  destruct (split sep r) as [| f fs] eqn:E; simpl in *; [discriminate IH | exact IH].
Qed.

Lemma contains_app (x : ascii) (a b : string) :
  contains x (a ++ b) = contains x a || contains x b.
Proof.
  induction a as [| c r IH]; simpl; [reflexivity |].
  rewrite IH. apply orb_assoc.
Qed.

(** *** [replace] *)

Lemma prefix_differs (o : ascii) (old s : string) (c : ascii) :
  differs o c = true -> String.prefix (String o old) (String c s) = false.
Proof.
  unfold differs. intro H. simpl.
  destruct (ascii_dec o c) as [-> | _]; [| reflexivity].
  rewrite Ascii.eqb_refl in H. discriminate H.
Qed.

(** A string without the first character of [old] passes unchanged. *)
Lemma replace_absent (o : ascii) (old new s t : string) :
  all_chars (differs o) s = true ->
  replace_from (String o old) new 0 (s ++ t) =
  (s ++ replace_from (String o old) new 0 t)%string.
Proof.
  induction s as [| c r IH]; intro H; [reflexivity |].
  simpl in H. apply andb_true_iff in H. destruct H as [Hc Hr].
  change ((String c r ++ t)%string) with (String c (r ++ t)).
  cbn [replace_from]. rewrite (prefix_differs o old (r ++ t) c Hc).
  rewrite (IH Hr). reflexivity.
Qed.

Lemma replace_skip_all (old new s : string) :
  replace_from old new (String.length s) s = EmptyString.
Proof. induction s as [| c r IH]; simpl; [reflexivity | exact IH]. Qed.

Lemma prefix_refl (s t : string) : String.prefix s (s ++ t) = true.
Proof.
  induction s as [| c r IH]; simpl; [destruct t; reflexivity |].
  destruct (ascii_dec c c); [exact IH | congruence].
Qed.

(** Removing [old] from [old] itself leaves nothing. *)
Lemma replace_self (o : ascii) (old : string) :
  replace_from (String o old) "" 0 (String o old) = EmptyString.
Proof.
  cbn [replace_from].
  rewrite <- (append_empty (String o old)) at 2.
  rewrite prefix_refl. simpl. rewrite Nat.sub_0_r. apply replace_skip_all.
Qed.

(** Removing the commas undoes the grouping of digits. *)
Lemma replace_group3 (ds t : string) :
  all_chars (differs ",") ds = true ->
  replace_from "," "" 0 (group3 ds ++ t) =
  (ds ++ replace_from "," "" 0 t)%string.
Proof.
  induction ds as [| c r IH]; intro H; [reflexivity |].
  simpl in H. apply andb_true_iff in H. destruct H as [Hc Hr].
  cbn [group3].
  destruct ((0 <? String.length r)%nat && (String.length r mod 3 =? 0)%nat)%bool.
  - change ((String c (String "," (group3 r)) ++ t)%string)
      with (String c (String "," (group3 r ++ t))).
    cbn [replace_from]. rewrite (prefix_differs "," "" _ c Hc).
    cbn [String.prefix]. destruct (ascii_dec "," ","); [| congruence].
    replace (String.prefix "" (group3 r ++ t)) with true
      by (destruct (group3 r ++ t)%string; reflexivity).
    simpl. rewrite (IH Hr). reflexivity.
  - change ((String c (group3 r) ++ t)%string) with (String c (group3 r ++ t)).
    cbn [replace_from]. rewrite (prefix_differs "," "" _ c Hc).
    rewrite (IH Hr). reflexivity.
Qed.

(** *** Numerals *)

Lemma is_digit_differs (x : ascii) :
  is_digit x = false -> forall c, is_digit c = true -> differs x c = true.
Proof.
  intros Hx c Hc. unfold differs. destruct (Ascii.eqb c x) eqn:E; [| reflexivity].
  apply Ascii.eqb_eq in E. subst. congruence.
Qed.

Lemma digits_of_uint (d : Decimal.uint) :
  all_chars is_digit (NilEmpty.string_of_uint d) = true.
Proof. induction d; simpl; auto. Qed.

Lemma digits_val_uint (d : Decimal.uint) :
  forall acc, digits_val acc (NilEmpty.string_of_uint d) = Some (uint_val acc d).
Proof.
  induction d; intro acc; cbn [NilEmpty.string_of_uint uint_val];
    [reflexivity | ..];
    cbn [digits_val]; simpl Ascii.eqb; cbv iota;
    unfold digit_val; simpl nat_of_ascii; simpl; rewrite IHd; do 2 f_equal; lia.
Qed.

Lemma uint_val_acc (d : Decimal.uint) :
  forall p : positive, uint_val (Zpos p) d = Zpos (Pos.of_uint_acc d p).
Proof.
  induction d; intro p; cbn [uint_val Pos.of_uint_acc]; [reflexivity | ..];
    rewrite <- IHd; f_equal; lia.
Qed.

Lemma uint_val_of_uint (d : Decimal.uint) :
  uint_val 0 d = Z.of_N (Pos.of_uint d).
Proof.
  induction d; cbn [uint_val Pos.of_uint]; [reflexivity | exact IHd | ..];
    simpl Z.add; rewrite uint_val_acc; reflexivity.
Qed.

(** The numeral of a natural number reads back as the number. *)
Lemma unsigned_val_numeral (n : N) :
  unsigned_val (NilZero.string_of_uint (N.to_uint n)) = Some (Z.of_N n).
Proof.
  assert (Hd : digits_val 0 (NilEmpty.string_of_uint (N.to_uint n)) = Some (Z.of_N n)).
  { rewrite digits_val_uint, uint_val_of_uint.
    change (Pos.of_uint (N.to_uint n)) with (N.of_uint (N.to_uint n)).
    rewrite DecimalN.Unsigned.of_to. reflexivity. }
  pose proof (digits_of_uint (N.to_uint n)) as Hall.
  unfold NilZero.string_of_uint.
  destruct (N.to_uint n) as [| u | u | u | u | u | u | u | u | u | u] eqn:E;
    unfold unsigned_val; exact Hd.
Qed.

Lemma numeral_digits (n : N) :
  all_chars is_digit (NilZero.string_of_uint (N.to_uint n)) = true.
Proof.
  unfold NilZero.string_of_uint.
  pose proof (digits_of_uint (N.to_uint n)) as H.
  destruct (N.to_uint n); [reflexivity | exact H ..].
Qed.

(** *** [strip] *)

Lemma rstrip_plain (s : string) :
  all_chars (fun c => negb (is_space c)) s = true -> rstrip s = s.
Proof.
  induction s as [| c r IH]; simpl; [reflexivity |].
  intro H. apply andb_true_iff in H. destruct H as [Hc Hr].
  rewrite (IH Hr). apply negb_true_iff in Hc. rewrite Hc.
  destruct r; reflexivity.
Qed.

Lemma strip_plain (s : string) :
  all_chars (fun c => negb (is_space c)) s = true -> strip s = s.
Proof.
  intro H. unfold strip.
  assert (Hl : lstrip s = s).
  { destruct s as [| c r]; [reflexivity |]. simpl in *.
    apply andb_true_iff in H. destruct H as [Hc _].
    apply negb_true_iff in Hc. rewrite Hc. reflexivity. }
  rewrite Hl. apply rstrip_plain. exact H.
Qed.

End TextFacts.

(** ** Quantities and links *)

Module FieldFacts.
Import Text Fields Numerals TextFacts.
Local Open Scope string_scope.

Lemma str_int_numeral (z : Z) : str_int z = sign_of z ++ digits_of z.
Proof. destruct z; reflexivity. Qed.

Lemma format_grouped_numeral (z : Z) :
  format_grouped z = sign_of z ++ group3 (digits_of z).
Proof. reflexivity. Qed.

Lemma numeral_differs (x : ascii) (z : Z) :
  is_digit x = false -> differs x "-" = true ->
  all_chars (differs x) (sign_of z ++ digits_of z) = true.
Proof.
  intros Hx Hm. rewrite all_chars_app. apply andb_true_iff. split.
  - unfold sign_of. destruct (z <? 0)%Z; simpl; [rewrite Hm |]; reflexivity.
  - apply (all_chars_impl is_digit); [apply is_digit_differs; exact Hx |].
    apply numeral_digits.
Qed.

Lemma numeral_no_space (z : Z) :
  all_chars (fun c => negb (is_space c)) (sign_of z ++ digits_of z) = true.
Proof.
  rewrite all_chars_app. apply andb_true_iff. split.
  - unfold sign_of. destruct (z <? 0)%Z; reflexivity.
  - apply (all_chars_impl is_digit); [| apply numeral_digits].
    intros c Hc.
    destruct c as [[] [] [] [] [] [] [] []]; try discriminate Hc; reflexivity.
Qed.

Lemma digit_not_sign (c : ascii) (r : string) :
  is_digit c = true ->
  match String c r with
  | String "-" r' => option_map Z.opp (unsigned_val r')
  | String "+" r' => unsigned_val r'
  | _ => unsigned_val (String c r)
  end = unsigned_val (String c r).
Proof.
  intro Hc.
  destruct c as [[] [] [] [] [] [] [] []]; try discriminate Hc; reflexivity.
Qed.

(** [int] reads a numeral back. *)
Lemma py_int_numeral (z : Z) : py_int (sign_of z ++ digits_of z) = Return z.
Proof.
  unfold py_int. rewrite (strip_plain _ (numeral_no_space z)).
  pose proof (unsigned_val_numeral (Z.to_N (Z.abs z))) as Hv.
  fold (digits_of z) in Hv.
  unfold sign_of. destruct (z <? 0)%Z eqn:Hz.
  - simpl. rewrite Hv. simpl. f_equal. apply Z.ltb_lt in Hz. lia.
  - simpl. apply Z.ltb_ge in Hz.
    destruct (digits_of z) as [| c r] eqn:Hd; [discriminate Hv |].
    assert (Hc : is_digit c = true).
    { pose proof (numeral_digits (Z.to_N (Z.abs z))) as Hall.
      fold (digits_of z) in Hall. rewrite Hd in Hall. simpl in Hall.
      apply andb_true_iff in Hall. apply Hall. }
    rewrite (digit_not_sign c r Hc), Hv. f_equal. lia.
Qed.

(** What the three replacements of [parse_int] leave of a grouped
    numeral followed by a unit that they remove. *)
Lemma parse_int_unit (z : Z) (unit : string) :
  replace_from "," "" 0 unit = unit ->
  replace "mi" "" (replace "ft" "" unit) = "" ->
  parse_int (format_grouped z ++ unit) = Return z.
Proof.
  intros Hcomma Hunit. unfold parse_int.
  assert (H1 : replace "," "" (format_grouped z ++ unit) =
               (sign_of z ++ digits_of z) ++ unit).
  { unfold replace. rewrite format_grouped_numeral, append_assoc.
    rewrite replace_absent
      by (unfold sign_of; destruct (z <? 0)%Z; reflexivity).
    rewrite replace_group3, Hcomma.
    - symmetry. apply append_assoc.
    - apply (all_chars_impl is_digit); [| apply numeral_digits].
      apply is_digit_differs. reflexivity. }
  rewrite H1. unfold replace at 2.
  rewrite replace_absent by (apply numeral_differs; reflexivity).
  unfold replace at 1.
  rewrite replace_absent by (apply numeral_differs; reflexivity).
  unfold replace in Hunit. rewrite Hunit, append_empty.
  apply py_int_numeral.
Qed.

End FieldFacts.

Import Fields Numerals TextFacts FieldFacts.

(** X8. [parse_int] reads back an integer written with thousands
    separators, bare or followed by the unit "ft" or "mi". *)
Theorem parse_int_grouped (z : Z) :
  parse_int (format_grouped z) = Return z /\
  parse_int (format_grouped z ++ "ft") = Return z /\
  parse_int (format_grouped z ++ "mi") = Return z.
Proof.
  split; [| split].
  - rewrite <- (append_empty (format_grouped z)).
    apply parse_int_unit; reflexivity.
  - apply parse_int_unit; reflexivity.
  - apply parse_int_unit; reflexivity.
Qed.

(** [int(str(n))] is [n] for every integer. *)
Lemma py_int_str_int (z : Z) : py_int (str_int z) = Return z.
Proof. rewrite str_int_numeral. apply py_int_numeral. Qed.

Lemma last_split (sep : ascii) (a b : string) :
  last (split sep (a ++ String sep b)) EmptyString = last (split sep b) EmptyString.
Proof.
  assert (Hlast : forall (x : string) l, l <> [] ->
             last (x :: l) EmptyString = last l EmptyString).
  { intros x [| y l] H; [congruence | reflexivity]. }
  induction a as [| c r IH].
  - simpl. rewrite Ascii.eqb_refl. apply Hlast, split_nonempty.
  - change ((String c r ++ String sep b)%string) with (String c (r ++ String sep b)).
    cbn [split]. destruct (Ascii.eqb c sep).
    + rewrite Hlast by apply split_nonempty. exact IH.
    + pose proof (split_length sep (r ++ String sep b)) as Hlen.
      assert (Hocc : (1 <= occurrences sep (r ++ String sep b))%nat).
      { clear. induction r as [| c' r' IHr]; simpl.
        - rewrite Ascii.eqb_refl. lia.
        - lia. }
      destruct (split sep (r ++ String sep b)) as [| f fs]; [simpl in Hlen; lia |].
      destruct fs as [| g fs]; [simpl in Hlen; lia |].
      rewrite <- IH. reflexivity.
Qed.

Lemma years_of_numerals (entries : list (string * Z)) :
  years_of (map (fun e => fst e ++ String "/" (str_int (snd e))) entries) =
  Return (map snd entries).
Proof.
  induction entries as [| [p y] r IH]; [reflexivity |].
  cbn [map years_of fst snd]. unfold last_field.
  rewrite last_split, split_absent.
  - cbn [last]. rewrite py_int_str_int. simpl. rewrite IH. reflexivity.
  - apply contains_differs. rewrite str_int_numeral.
    apply numeral_differs; reflexivity.
Qed.

(** X9. When the frame has dates and no years, and every date ends in a
    slash followed by the year, [add_ride_columns] returns a frame whose
    year column holds those years, next to the columns it was given. *)
Theorem add_ride_columns_year (f : frame) (entries : list (string * Z)) :
  year f = None ->
  date f = Some (map (fun e => fst e ++ String "/" (str_int (snd e))) entries) ->
  exists r : ride_frame,
    add_ride_columns f = Return r /\
    year (rides r) = Some (map snd entries) /\
    date (rides r) = date f /\ miles (rides r) = miles f /\
    hours (rides r) = hours f /\ feet (rides r) = feet f.
Proof.
  intros Hy Hd. unfold add_ride_columns, insert_year.
  rewrite Hy, Hd, years_of_numerals. simpl.
  eexists. split; [reflexivity |]. simpl. auto.
Qed.

Lemma add_ride_columns_year_witness :
  exists r : ride_frame,
    add_ride_columns {| date := Some ["10/5/2020"; "1/1/2021"]; year := None;
                        miles := [Fin 80; Fin 25]; hours := [Fin 6; Fin 2];
                        feet := [541%Z; 1200%Z] |} = Return r /\
    year (rides r) = Some [2020%Z; 2021%Z] /\
    date (rides r) = Some ["10/5/2020"; "1/1/2021"] /\
    miles (rides r) = [Fin 80; Fin 25] /\
    hours (rides r) = [Fin 6; Fin 2] /\ feet (rides r) = [541%Z; 1200%Z].
Proof.
  apply (add_ride_columns_year
           {| date := Some ["10/5/2020"; "1/1/2021"]; year := None;
              miles := [Fin 80; Fin 25]; hours := [Fin 6; Fin 2];
              feet := [541%Z; 1200%Z] |}
           [("10/5", 2020%Z); ("1/1", 2021%Z)]); reflexivity.
Defined.



(** X11. [make_clickable] leaves a comment without "!" as it is, turns
    [anchor!number] into a link to the activity, and raises [ValueError]
    on a comment with two or more "!". *)
Theorem make_clickable_cases (comment : string) :
  (occurrences "!" comment = 0%nat -> make_clickable comment = Return comment) /\
  (forall anchor number,
      comment = anchor ++ String "!" number ->
      occurrences "!" comment = 1%nat ->
      make_clickable comment =
      Return (anchor_element ("https://www.strava.com/activities/" ++ number) anchor)) /\
  ((2 <= occurrences "!" comment)%nat -> make_clickable comment = Raise ValueError).
Proof.
  unfold make_clickable. split; [| split].
  - intro H. apply occurrences_zero in H. rewrite H. reflexivity.
  - intros anchor number -> Hocc.
    assert (Hparts : contains "!" anchor = false /\ contains "!" number = false).
    { clear - Hocc. induction anchor as [| c r IH]; simpl in Hocc.
      - split; [reflexivity |]. apply occurrences_zero. lia.
      - simpl. destruct (Ascii.eqb c "!") eqn:E; simpl in *.
        + exfalso. clear - Hocc. induction r as [| c' r' IHr]; simpl in Hocc; [lia |].
          destruct (Ascii.eqb c' "!"); simpl in Hocc; [lia | auto].
        + apply IH. exact Hocc. }
    destruct Hparts as [Ha Hn].
    rewrite contains_app. simpl. rewrite orb_true_r. simpl.
    rewrite (split_first "!" anchor number Ha), (split_absent "!" number Hn).
    reflexivity.
  - intro H.
    destruct (contains "!" comment) eqn:E;
      [| apply occurrences_zero in E; lia].
    simpl. pose proof (split_length "!" comment) as Hlen.
    destruct (split "!" comment) as [| a [| b [| c l]]]; simpl in Hlen;
      try reflexivity; lia.
Qed.

Lemma make_clickable_cases_witness :
  make_clickable "Livermore!11287081291" =
  Return (anchor_element ("https://www.strava.com/activities/" ++ "11287081291")
                         "Livermore").
Proof.
  apply (proj1 (proj2 (make_clickable_cases "Livermore!11287081291"))
               "Livermore" "11287081291"); reflexivity.
Defined.

(** X12. [link_date] links a date of three slash-separated parts to the
    page of year, month and day, and raises [ValueError] on any string
    that does not have exactly two slashes. *)
Theorem link_date_cases (date : string) :
  (forall m d y,
      date = m ++ String "/" (d ++ String "/" y) ->
      occurrences "/" date = 2%nat ->
      link_date date =
      Return (anchor_element ("https://www.statshunters.com/?to=" ++ y ++ m ++ d) date)) /\
  (occurrences "/" date <> 2%nat -> link_date date = Raise ValueError).
Proof.
  unfold link_date. split.
  - intros m d y Hdate Hocc.
    pose proof (split_length "/" date) as Hlen. rewrite Hocc in Hlen.
    assert (Hm : contains "/" m = false).
    { destruct (contains "/" m) eqn:E; [| reflexivity]. exfalso.
      subst date. clear - Hocc E.
      assert (Happ : forall a b, occurrences "/" (a ++ b) =
                                 (occurrences "/" a + occurrences "/" b)%nat).
      { induction a as [| c r IH]; intro b; simpl; [reflexivity |].
        rewrite IH. lia. }
      rewrite Happ in Hocc. simpl in Hocc. rewrite Happ in Hocc. simpl in Hocc.
      assert (occurrences "/" m <> 0%nat)
        by (intro H0; apply occurrences_zero in H0; congruence).
      lia. }
    rewrite Hdate in Hlen |- *.
    rewrite (split_first "/" m _ Hm) in Hlen |- *.
    assert (Hd : contains "/" d = false).
    { destruct (contains "/" d) eqn:E; [| reflexivity]. exfalso.
      assert (Hd0 : occurrences "/" d <> 0%nat)
        by (intro H0; apply occurrences_zero in H0; congruence).
      simpl in Hlen. rewrite split_length in Hlen.
      assert (Happ : forall a b, occurrences "/" (a ++ b) =
                                 (occurrences "/" a + occurrences "/" b)%nat).
      { induction a as [| c r IH]; intro b; simpl; [reflexivity |].
        rewrite IH. lia. }
      rewrite Happ in Hlen. simpl in Hlen. lia. }
    rewrite (split_first "/" d y Hd) in Hlen |- *.
    simpl in Hlen.
    destruct (split "/" y) as [| y' [| z l]] eqn:Ey; simpl in Hlen; try lia.
    assert (Hy : contains "/" y = false).
    { apply occurrences_zero. pose proof (split_length "/" y) as Hl.
      rewrite Ey in Hl. simpl in Hl. lia. }
    rewrite (split_absent "/" y Hy) in Ey. inversion Ey; subst y'. reflexivity.
  - intro H. pose proof (split_length "/" date) as Hlen.
    destruct (split "/" date) as [| a [| b [| c [| e l]]]]; simpl in Hlen;
      try reflexivity. lia.
Qed.

Lemma link_date_cases_witness :
  link_date "01/01/2025" =
  Return (anchor_element ("https://www.statshunters.com/?to=" ++ "2025" ++ "01" ++ "01")
                         "01/01/2025").
Proof.
  apply (proj1 (link_date_cases "01/01/2025") "01" "01" "2025"); reflexivity.
Defined.

(** ** Rounding *)

Module RoundFacts.
Import Num NumFacts.
Local Open Scope Q_scope.

(** Rounding moves a number by at most a half. *)
Lemma round_half_even_near (x : Q) :
  x - (1 # 2) <= inject_Z (round_half_even x) <= x + (1 # 2).
Proof.
  unfold round_half_even.
  pose proof (Qfloor_le x) as Hlo. pose proof (Qlt_floor x) as Hhi.
  rewrite inject_Z_plus in Hhi. change (inject_Z 1) with 1 in Hhi.
  destruct (Qcompare (x - inject_Z (Qfloor x)) (1 # 2)) eqn:E.
  - apply Qeq_alt in E. destruct (Z.even (Qfloor x));
      [| rewrite inject_Z_plus; change (inject_Z 1) with 1]; lra.
  - apply Qlt_alt in E. lra.
  - apply Qgt_alt in E. rewrite inject_Z_plus. change (inject_Z 1) with 1. lra.
Qed.

(** Rounding keeps the order. *)
Lemma round_half_even_monotone (x y : Q) :
  x <= y -> (round_half_even x <= round_half_even y)%Z.
Proof.
  intro H.
  destruct (Z_le_gt_dec (round_half_even x) (round_half_even y)) as [Hle | Hgt];
    [exact Hle | exfalso].
  pose proof (round_half_even_near x) as Hx.
  pose proof (round_half_even_near y) as Hy.
  assert (Hz : (round_half_even y + 1 <= round_half_even x)%Z) by lia.
  rewrite Zle_Qle, inject_Z_plus in Hz. change (inject_Z 1) with 1 in Hz.
  assert (Heq : x == y) by (apply Qle_antisym; lra).
  rewrite (round_half_even_comp x y Heq) in Hgt. lia.
Qed.

Lemma round_half_even_Z (z : Z) : round_half_even (inject_Z z) = z.
Proof.
  unfold round_half_even. rewrite Qfloor_Z.
  assert (E : Qcompare (inject_Z z - inject_Z z) (1 # 2) = Lt).
  { apply -> Qlt_alt. lra. }
  rewrite E. reflexivity.
Qed.



End RoundFacts.

(** ** Progress: the next threshold *)

Module ProgressFacts.
Import Text Num NumFacts Badges RoundedFacts BadgeFacts Fields.
Local Open Scope Q_scope.







End ProgressFacts.

Import ProgressFacts RoundFacts.











(** ** Time parsing: failures and accuracy *)






(** ** Percentages and county miles *)

Lemma format_f_point (k : nat) (x : Q) : contains "." (format_f (S k) x) = true.
Proof.
  unfold format_f. rewrite !contains_app. simpl.
  rewrite !orb_true_r. reflexivity.
Qed.

(** X19. [pretty_pct] writes "100%" for exactly 100 percent and for no
    other number: everything else is written with decimals. *)
Theorem pretty_pct_100 (p : Q) : pretty_pct p = "100%" <-> p == 100.
Proof.
  unfold pretty_pct. destruct (Qeq_bool p 100) eqn:E.
  - apply Qeq_bool_iff in E. tauto.
  - split.
    + intro H. exfalso.
      assert (Hc : contains "." (pretty_pct p) = true).
      { unfold pretty_pct. rewrite E.
        destruct (Qltb 1 p); rewrite contains_app, format_f_point; reflexivity. }
      unfold pretty_pct in Hc. rewrite E, H in Hc. discriminate Hc.
    + intro H. apply Qeq_bool_iff in H. congruence.
Qed.

(** X20. For percentages between 0 and 100, [county_miles] returns the
    miles of the two counties and their total, within the mileage of each
    county (2827 and 7689 miles), and a larger percentage never gives
    fewer miles. *)
Theorem county_miles_bounds (SMp SCp : Q) :
  0 <= SMp <= 100 ->
  0 <= SCp <= 100 ->
  exists a b : Z,
    county_miles SMp SCp = [a; b; (a + b)%Z] /\
    (0 <= a <= 2827)%Z /\ (0 <= b <= 7689)%Z /\
    forall SMp' SCp' a' b' t',
      SMp <= SMp' -> SCp <= SCp' ->
      county_miles SMp' SCp' = [a'; b'; t'] ->
      (a <= a')%Z /\ (b <= b')%Z /\ (a + b <= t')%Z.
Proof.
  intros [Ha0 Ha1] [Hb0 Hb1]. unfold county_miles.
  eexists. eexists. split; [reflexivity |].
  assert (Hscale : forall (c p q : Q), 0 <= c -> p <= q -> c * p / 100 <= c * q / 100).
  { intros c p q Hc Hpq. unfold Qdiv. change (/ 100) with (1 # 100).
    apply Qmult_le_compat_r; [| discriminate].
    rewrite !(Qmult_comm c). apply Qmult_le_compat_r; assumption. }
  assert (Hc1 : 0 <= 28273 # 10) by discriminate.
  assert (Hc2 : 0 <= 76887 # 10) by discriminate.
  split; [| split].
  - split.
    + change 0%Z with (round_half_even ((28273 # 10) * 0 / 100)).
      apply round_half_even_monotone, Hscale; assumption.
    + change 2827%Z with (round_half_even ((28273 # 10) * 100 / 100)).
      apply round_half_even_monotone, Hscale; assumption.
  - split.
    + change 0%Z with (round_half_even ((76887 # 10) * 0 / 100)).
      apply round_half_even_monotone, Hscale; assumption.
    + change 7689%Z with (round_half_even ((76887 # 10) * 100 / 100)).
      apply round_half_even_monotone, Hscale; assumption.
  - intros SMp' SCp' a' b' t' Hsm Hsc Heq. inversion Heq; subst; clear Heq.
    assert (H1 := round_half_even_monotone _ _ (Hscale _ _ _ Hc1 Hsm)).
    assert (H2 := round_half_even_monotone _ _ (Hscale _ _ _ Hc2 Hsc)).
    lia.
Qed.

Lemma county_miles_bounds_witness :
  exists a b : Z,
    county_miles (7880 # 100) (3883 # 100) = [a; b; (a + b)%Z] /\
    (0 <= a <= 2827)%Z /\ (0 <= b <= 7689)%Z /\
    forall SMp' SCp' a' b' t',
      (7880 # 100) <= SMp' -> (3883 # 100) <= SCp' ->
      county_miles SMp' SCp' = [a'; b'; t'] ->
      (a <= a')%Z /\ (b <= b')%Z /\ (a + b <= t')%Z.
Proof.
  apply (county_miles_bounds (7880 # 100) (3883 # 100)); split; q_decide.
Defined.

(** ** Ride columns on well-formed rows *)

Lemma zip_with_length {A B C : Type} (f : A -> B -> C) (xs : list A) :
  forall ys : list B,
    List.length xs = List.length ys ->
    List.length (zip_with f xs ys) = List.length xs.
Proof.
  induction xs as [| x xs IH]; intros [| y ys] H; simpl in *;
    try discriminate; [reflexivity |].
  f_equal. apply IH. lia.
Qed.




(** X22. When the three input columns have one entry per ride, so has
    each of the six columns [add_ride_columns] adds. *)
Theorem add_ride_columns_lengths (f : frame) (r : ride_frame) (n : nat) :
  add_ride_columns f = Return r ->
  List.length (miles f) = n ->
  List.length (hours f) = n ->
  List.length (feet f) = n ->
  List.length (mph r) = n /\ List.length (vam r) = n /\
  List.length (fpmi r) = n /\ List.length (pct r) = n /\
  List.length (kms r) = n /\ List.length (meters r) = n.
Proof.
  intros Hret Hmi Hhr Hft. unfold add_ride_columns in Hret.
  destruct (insert_year f) as [f' |]; simpl in Hret; [| discriminate].
  inversion Hret; subst r; clear Hret. cbn [mph vam fpmi pct kms meters].
  rewrite !length_map, !zip_with_length by (rewrite ?length_map; congruence).
  rewrite ?length_map. repeat split; assumption.
Qed.

Lemma add_ride_columns_lengths_witness :
  List.length [Inf false; Fin 0] = 2%nat /\ List.length [Inf false; Fin 30] = 2%nat /\
  List.length [Fin 10; Inf false] = 2%nat /\
  List.length [Fin (19 # 100); Inf false] = 2%nat /\
  List.length [Fin (1609 # 100); Fin 0] = 2%nat /\
  List.length [Fin 30; Fin 30] = 2%nat.
Proof.
  apply (add_ride_columns_lengths
           {| date := None; year := None; miles := [Fin 10; Fin 0];
              hours := [Fin 0; Fin 1]; feet := [100%Z; 100%Z] |}
           {| rides := {| date := None; year := None; miles := [Fin 10; Fin 0];
                          hours := [Fin 0; Fin 1]; feet := [100%Z; 100%Z] |};
              mph := [Inf false; Fin 0]; vam := [Inf false; Fin 30];
              fpmi := [Fin 10; Inf false]; pct := [Fin (19 # 100); Inf false];
              kms := [Fin (1609 # 100); Fin 0]; meters := [Fin 30; Fin 30] |}
           2%nat); reflexivity.
Defined.

(** ** The evaluator of [poly_fit] *)





(** ** Initials *)

Lemma words_none (s : string) :
  words s = [] <-> all_chars is_space s = true.
Proof.
  induction s as [| c r IH]; [simpl; tauto |].
  cbn [words all_chars]. destruct (is_space c); simpl; [exact IH |].
  split; [| discriminate]. intro H.
  destruct r as [| c' r']; [discriminate H |].
  destruct (is_space c'); [discriminate H |].
  destruct (words (String c' r')); discriminate H.
Qed.

Lemma words_In_nonempty (s : string) :
  forall w, In w (words s) -> w <> EmptyString.
Proof.
  induction s as [| c r IH]; intros w Hin; [contradiction |].
  cbn [words] in Hin. destruct (is_space c); [apply IH; exact Hin |].
  destruct r as [| c' r'].
  - destruct Hin as [<- | []]. discriminate.
  - destruct (is_space c').
    + destruct Hin as [<- | Hin]; [discriminate | apply IH; exact Hin].
    + destruct (words (String c' r')) as [| w0 ws].
      * destruct Hin as [<- | []]. discriminate.
      * destruct Hin as [<- | Hin]; [discriminate |].
        apply IH. right. exact Hin.
Qed.

Lemma words_first (w r : string) (sp : ascii) :
  w <> EmptyString ->
  all_chars (fun c => negb (is_space c)) w = true ->
  is_space sp = true ->
  words (w ++ String sp r) = w :: words r.
Proof.
  intros Hne Hw Hsp. induction w as [| c w' IH]; [congruence |].
  simpl in Hw. apply andb_true_iff in Hw. destruct Hw as [Hc Hw'].
  apply negb_true_iff in Hc.
  change ((String c w' ++ String sp r)%string) with (String c (w' ++ String sp r)).
  cbn [words]. rewrite Hc. destruct w' as [| c' w''].
  - simpl. rewrite Hsp. reflexivity.
  - change ((String c' w'' ++ String sp r)%string)
      with (String c' (w'' ++ String sp r)) in *.
    simpl in Hw'. apply andb_true_iff in Hw'. destruct Hw' as [Hc' Hw''].
    pose proof Hc' as Hc'n. apply negb_true_iff in Hc'n. rewrite Hc'n.
    rewrite IH; [reflexivity | discriminate |].
    simpl. rewrite Hc', Hw''. reflexivity.
Qed.

Lemma words_single (w : string) :
  w <> EmptyString ->
  all_chars (fun c => negb (is_space c)) w = true ->
  words w = [w].
Proof.
  intros Hne Hw. induction w as [| c w' IH]; [congruence |].
  simpl in Hw. apply andb_true_iff in Hw. destruct Hw as [Hc Hw'].
  apply negb_true_iff in Hc. cbn [words]. rewrite Hc.
  destruct w' as [| c' w'']; [reflexivity |].
  pose proof Hw' as Hw2. simpl in Hw2. apply andb_true_iff in Hw2.
  destruct Hw2 as [Hc' _]. apply negb_true_iff in Hc'. rewrite Hc'.
  rewrite IH; [reflexivity | discriminate | exact Hw'].
Qed.

(** X24. [initials] fails (with an [IndexError]) exactly on a name that is
    empty or all whitespace; otherwise it returns two characters; and for
    a first and a last name separated by a space they are the first
    letters of the two. *)
Theorem initials_cases (name : string) :
  (initials name = None <-> all_chars is_space name = true) /\
  (forall s, initials name = Some s -> String.length s = 2%nat) /\
  (forall c1 first c2 last,
      name = String c1 first ++ String " " (String c2 last) ->
      all_chars (fun c => negb (is_space c)) (String c1 first) = true ->
      all_chars (fun c => negb (is_space c)) (String c2 last) = true ->
      initials name = Some (String c1 (String c2 EmptyString))).
Proof.
  split; [| split].
  - unfold initials. destruct name as [| c r]; [simpl; tauto |].
    cbn [first_char]. rewrite <- words_none.
    destruct (words (String c r)) as [| w0 ws] eqn:Ew; [simpl; tauto |].
    split; [| discriminate]. intro H. exfalso.
    assert (Hne : rev (w0 :: ws) <> []).
    { intro Hr. apply (f_equal (@List.length string)) in Hr.
      rewrite length_rev in Hr. discriminate Hr. }
    destruct (rev (w0 :: ws)) as [| w l] eqn:Er; [congruence |].
    assert (Hw : In w (words (String c r))).
    { rewrite Ew. apply in_rev. rewrite Er. left. reflexivity. }
    apply words_In_nonempty in Hw.
    destruct w; [congruence | discriminate H].
  - intros s H. unfold initials in H.
    destruct name as [| c r]; [discriminate H |]. cbn [first_char] in H.
    destruct (rev (words (String c r))) as [| w l]; [discriminate H |].
    destruct w; [discriminate H |]. inversion H. reflexivity.
  - intros c1 first c2 last -> H1 H2. unfold initials.
    change ((String c1 first ++ String " " (String c2 last))%string)
      with (String c1 (first ++ String " " (String c2 last))) at 1.
    cbn [first_char].
    rewrite (words_first (String c1 first) (String c2 last) " ");
      [| discriminate | exact H1 | reflexivity].
    rewrite (words_single (String c2 last)); [| discriminate | exact H2].
    reflexivity.
Qed.

Lemma initials_cases_witness : initials "Megan Gardner" = Some "MG".
Proof.
  apply (proj2 (proj2 (initials_cases "Megan Gardner"))
               "M"%char "egan" "G"%char "ardner");
    reflexivity.
Defined.
